(** * The Transformer encoder notebook (020_Encoder.ipynb)

    A shallow embedding of the three pieces of Python the notebook
    defines itself:

    - [PositionalEncoding] (its [__init__] and [forward]),
    - [TransformerEncoder] (its [__init__] and [forward]),
    - the plotting helper [normalize].

    Tensor entries are real numbers: [torch.sin], [torch.cos],
    [torch.exp], [math.log], [math.sqrt] and the arithmetic of floats are
    read as the real functions they approximate.  The entries of numpy
    arrays are floats with their infinities and NaN: finite results are
    exact, results beyond the range of the float type overflow to an
    infinity.  Shapes, broadcasting, exceptions, the random generator
    used by dropout and the store of numpy arrays are modelled
    explicitly. *)

From Stdlib Require Import Reals Lra Lia ZArith List Ascii String.
From stdpp Require Import base option list gmap.

Local Open Scope nat_scope.

(** ** Python exceptions *)

Inductive exn : Type :=
| ValueError
| IndexError
| RuntimeError
| ZeroDivisionError
| AttributeError
| TypeError
| FrameworkError (code : nat).

Inductive result (A : Type) : Type :=
| Ok (a : A)
| Raise (e : exn).

Arguments Ok {A} a.
Arguments Raise {A} e.

(** A computation that may raise and that threads a state of type [S]
    (the random generator, or the generator together with a call log).
    The state is kept when an exception is raised. *)

Definition M (S A : Type) : Type := S -> result A * S.

Definition ret {S A} (a : A) : M S A := fun s => (Ok a, s).

Definition raise {S A} (e : exn) : M S A := fun s => (Raise e, s).

Definition bind {S A B} (c : M S A) (k : A -> M S B) : M S B :=
  fun s =>
    match c s with
    | (Ok a, s') => k a s'
    | (Raise e, s') => (Raise e, s')
    end.

Definition lift_result {S A} (r : result A) : M S A := fun s => (r, s).

Notation "'let*' x ':=' c 'in' k" := (bind c (fun x => k))
  (at level 10, x name, c at level 100, k at level 200).

(** ** Tensors

    A tensor is its shape and its entries, read at a multi-index.  Only the
    entries at indices inside the shape mean anything. *)

Record tensor (A : Type) : Type := mkTensor {
  shape : list nat;
  item : list nat -> A
}.

Arguments mkTensor {A} shape item.
Arguments shape {A} t.
Arguments item {A} t idx.

Definition idx_at (idx : list nat) (k : nat) : nat := nth k idx 0.

Definition in_shape (idx s : list nat) : Prop := Forall2 lt idx s.

Definition numel (s : list nat) : nat := foldr Nat.mul 1 s.

(** [x.size(k)]: an [IndexError] when the tensor has no dimension [k]. *)
Definition size {A} (x : tensor A) (k : nat) : result nat :=
  match shape x !! k with
  | Some n => Ok n
  | None => Raise IndexError
  end.

(** All the multi-indices of a shape, in row-major order. *)
Fixpoint indices (s : list nat) : list (list nat) :=
  match s with
  | [] => [[]]
  | d :: s' => i ← seq 0 d; (cons i) <$> indices s'
  end.

(** *** Broadcasting

    Shapes are aligned on their last dimension; two sizes are compatible
    when they are equal or one of them is 1. *)

Fixpoint broadcast_rev (a b : list nat) : option (list nat) :=
  match a, b with
  | [], _ => Some b
  | _, [] => Some a
  | x :: a', y :: b' =>
      if x =? y then cons x <$> broadcast_rev a' b'
      else if x =? 1 then cons y <$> broadcast_rev a' b'
      else if y =? 1 then cons x <$> broadcast_rev a' b'
      else None
  end.

Definition broadcast_shapes (a b : list nat) : option (list nat) :=
  reverse <$> broadcast_rev (reverse a) (reverse b).

(** The index at which an operand of shape [s] is read for the entry [idx]
    of the broadcast result: leading dimensions the operand lacks are
    dropped, and a dimension of size 1 is always read at 0. *)
Definition bidx (s idx : list nat) : list nat :=
  zip_with (fun d i => if d =? 1 then 0 else i) s (drop (length idx - length s) idx).

(** [x op y], out of place. *)
Definition tensor_binop {A B C} (f : A -> B -> C) (x : tensor A) (y : tensor B)
  : result (tensor C) :=
  match broadcast_shapes (shape x) (shape y) with
  | Some s =>
      Ok (mkTensor s (fun idx => f (item x (bidx (shape x) idx)) (item y (bidx (shape y) idx))))
  | None => Raise RuntimeError
  end.

(** [x op= y], in place: [y] must broadcast to the shape of [x]. *)
Definition tensor_iop {A B} (f : A -> B -> A) (x : tensor A) (y : tensor B)
  : result (tensor A) :=
  if decide (broadcast_shapes (shape x) (shape y) = Some (shape x)) then
    Ok (mkTensor (shape x) (fun idx => f (item x idx) (item y (bidx (shape y) idx))))
  else Raise RuntimeError.

Definition tensor_map {A B} (f : A -> B) (x : tensor A) : tensor B :=
  mkTensor (shape x) (fun idx => f (item x idx)).

(** [torch.zeros] of a shape *)
Definition zeros (s : list nat) : tensor R := mkTensor s (fun _ => 0%R).

(** [torch.arange(0.0, n)] *)
Definition arange (n : nat) : tensor R :=
  mkTensor [n] (fun idx => INR (idx_at idx 0)).

(** [torch.arange(0.0, n, 2)]: the even numbers below [n]. *)
Definition arange_step2 (n : nat) : tensor R :=
  mkTensor [(n + 1) / 2] (fun idx => INR (2 * idx_at idx 0)).

(** [x.unsqueeze(k)] *)
Definition unsqueeze {A} (k : nat) (x : tensor A) : result (tensor A) :=
  if k <=? length (shape x) then
    Ok (mkTensor (take k (shape x) ++ 1 :: drop k (shape x))
                 (fun idx => item x (delete k idx)))
  else Raise IndexError.

(** [x.transpose(0, 1)] *)
Definition transpose01 {A} (x : tensor A) : result (tensor A) :=
  match shape x with
  | a :: b :: rest =>
      Ok (mkTensor (b :: a :: rest)
            (fun idx => match idx with
                        | i :: j :: more => item x (j :: i :: more)
                        | _ => item x idx
                        end))
  | _ => Raise IndexError
  end.

(** [x[:, :n]] *)
Definition slice_dim1 {A} (n : nat) (x : tensor A) : result (tensor A) :=
  match shape x with
  | a :: b :: rest => Ok (mkTensor (a :: Nat.min n b :: rest) (item x))
  | _ => Raise IndexError
  end.

(** The number of columns [start, start + 2, ...] below [c]. *)
Definition strided_cols (start c : nat) : nat := (c - start + 1) / 2.

(** [dst[:, start::2] = src] on a matrix [dst]: [src] must broadcast to the
    strided view. *)
Definition set_cols_step2 (start : nat) (dst src : tensor R) : result (tensor R) :=
  match shape dst with
  | [r; c] =>
      let view := [r; strided_cols start c] in
      if decide (broadcast_shapes view (shape src) = Some view) then
        Ok (mkTensor [r; c]
              (fun idx =>
                 let i := idx_at idx 0 in
                 let j := idx_at idx 1 in
                 if (start <=? j) && ((j - start) mod 2 =? 0)
                 then item src (bidx (shape src) [i; (j - start) / 2])
                 else item dst idx))
      else Raise RuntimeError
  | _ => Raise IndexError
  end.

(** ** The random generator and dropout

    Dropout draws its keep-mask from torch's global generator.  The
    generator is an interface: a state and the Bernoulli draw of a mask of
    a given shape, which returns the next state. *)

Class Generator : Type := {
  Rng : Type;
  bernoulli : R -> list nat -> Rng -> tensor bool * Rng
}.

Definition Req_bool (x y : R) : bool := if Req_dec_T x y then true else false.

Definition Rle_bool (x y : R) : bool := if Rle_dec x y then true else false.

Definition Rlt_bool (x y : R) : bool := if Rlt_dec x y then true else false.

Section Dropout.
Context `{Generator}.

(** [F.dropout(x, p, training)].  The framework rejects a probability
    outside [0, 1]; it returns its input untouched when not training,
    when [p] is 0 or when the tensor is empty; everything is zeroed when
    [p] is 1; otherwise a mask is drawn and the kept entries are scaled
    by 1 / (1 - p). *)
Definition F_dropout (x : tensor R) (p : R) (training : bool) : M Rng (tensor R) :=
  if negb (Rle_bool 0 p && Rle_bool p 1) then raise ValueError
  else if negb training || Req_bool p 0 || (numel (shape x) =? 0) then ret x
  else if Req_bool p 1 then ret (tensor_map (fun v => (v * 0)%R) x)
  else fun g =>
    let (mask, g') := bernoulli (1 - p)%R (shape x) g in
    (Ok (mkTensor (shape x)
           (fun idx => if item mask idx then (item x idx / (1 - p))%R else 0%R)),
     g').
End Dropout.

(** A generator that keeps every entry, to run the model on. *)
Definition keep_all : Generator :=
  {| Rng := nat;
     bernoulli := fun _ s g => (mkTensor s (fun _ => true), S g) |}.

(** ** PositionalEncoding *)

Module PositionalEncoding.

Record t : Type := mk {
  dropout_p : R;
  training : bool;
  pe : tensor R
}.

Definition default_max_len : nat := 500.

(** [torch.exp(torch.arange(0.0, d_model, 2) * -(math.log(10000.0) / d_model))];
    the division is Python's and raises on [d_model = 0]. *)
Definition div_term (d_model : nat) : result (tensor R) :=
  let evens := arange_step2 d_model in
  if d_model =? 0 then Raise ZeroDivisionError
  else
    let c := (- (ln 10000 / INR d_model))%R in
    Ok (tensor_map exp (tensor_map (fun v => (v * c)%R) evens)).

Definition __init__ (d_model : nat) (dropout : R) (max_len : nat) : result t :=
  if negb (Rle_bool 0 dropout && Rle_bool dropout 1) then Raise ValueError
  else
    let pe0 := zeros [max_len; d_model] in
    match unsqueeze 1 (arange max_len) with
    | Raise e => Raise e
    | Ok position =>
    match div_term d_model with
    | Raise e => Raise e
    | Ok dt =>
    match tensor_binop Rmult position dt with
    | Raise e => Raise e
    | Ok angle =>
    match set_cols_step2 0 pe0 (tensor_map sin angle) with
    | Raise e => Raise e
    | Ok pe1 =>
    match set_cols_step2 1 pe1 (tensor_map cos angle) with
    | Raise e => Raise e
    | Ok pe2 =>
    match unsqueeze 0 pe2 with
    | Raise e => Raise e
    | Ok pe3 => Ok (mk dropout true pe3)
    end end end end end end.

(** [self.eval()] and [self.train(mode)] *)
Definition train (mode : bool) (self : t) : t :=
  mk (dropout_p self) mode (pe self).

(** Row [pos] of the table, and the vector [0, 1, 0, 1, ...]. *)
Definition pe_row (self : t) (pos n : nat) : list R :=
  map (fun j => item (pe self) [0; pos; j]) (seq 0 n).

Definition alternating (n : nat) : list R :=
  map (fun j => if Nat.even j then 0%R else 1%R) (seq 0 n).

Section Forward.
Context `{Generator}.

Definition forward (self : t) (x : tensor R) : M Rng (tensor R) :=
  let* n := lift_result (size x 1) in
  let* pe_n := lift_result (slice_dim1 n (pe self)) in
  let* x' := lift_result (tensor_binop Rplus x pe_n) in
  F_dropout x' (dropout_p self) (training self).
End Forward.

End PositionalEncoding.

(** ** TransformerEncoder

    The encoder is glue around modules of the framework: the token
    embedding, the positional embedding, the encoder layers and the layer
    normalization.  They are interfaces here; each call of one of them is
    recorded, with its arguments and its result, in a call log that is
    carried next to the generator. *)

Record Args : Type := mkArgs {
  args_dropout : R;
  fuse_dropout_add : bool;
  fuse_relu_dropout : bool;
  max_source_positions : nat;
  encoder_learned_pos : bool;
  no_token_positional_embeddings : bool;
  encoder_layers : nat;
  encoder_normalize_before : bool;
  fuse_layer_norm : bool
}.

(** [embed_tokens]: an [nn.Embedding].  Its [padding_idx] is None unless
    one was given. *)
Record Embedding : Type := mkEmbedding {
  embedding_dim : nat;
  emb_padding_idx : option Z;
  embed : tensor Z -> result (tensor R)
}.

Record PositionalEmbedding : Type := mkPositionalEmbedding {
  positions : tensor Z -> result (tensor R)
}.

Record LayerNorm : Type := mkLayerNorm {
  norm : tensor R -> result (tensor R)
}.

Section Encoder.
Context `{Generator}.

(** An encoder layer has dropouts of its own, so it runs on the
    generator. *)
Record EncoderLayer : Type := mkEncoderLayer {
  layer_forward : tensor R -> option (tensor bool) -> M Rng (tensor R)
}.

(** The constructors the encoder calls. *)
Class Framework : Type := {
  new_PositionalEmbedding : nat -> nat -> option Z -> bool -> bool -> M Rng PositionalEmbedding;
  new_TransformerEncoderLayer : Args -> M Rng EncoderLayer;
  new_FusedLayerNorm : nat -> M Rng LayerNorm;
  new_LayerNorm : nat -> M Rng LayerNorm
}.

Inductive Event : Type :=
| EvNewLayer (l : EncoderLayer)
| EvEmbedTokens (src : tensor Z) (out : tensor R)
| EvEmbedPositions (src : tensor Z) (out : tensor R)
| EvDropout (x : tensor R) (p : R) (training : bool) (out : tensor R)
| EvLayer (l : EncoderLayer) (x : tensor R) (mask : option (tensor bool)) (out : tensor R)
| EvLayerNorm (x : tensor R) (out : tensor R).

Record St : Type := mkSt {
  gen : Rng;
  calls : list Event
}.

Definition log (ev : Event) : M St unit :=
  fun st => (Ok tt, mkSt (gen st) (calls st ++ [ev])).

(** Run a computation on the generator, leaving the log alone. *)
Definition on_gen {A} (c : M Rng A) : M St A :=
  fun st => let (r, g) := c (gen st) in (r, mkSt g (calls st)).

End Encoder.

Module TransformerEncoder.
Section WithFramework.
Context `{Framework}.

Record t : Type := mk {
  dropout : R;
  self_fuse_dropout_add : bool;
  self_fuse_relu_dropout : bool;
  padding_idx : option Z;
  self_max_source_positions : nat;
  embed_tokens : Embedding;
  embed_scale : R;
  embed_positions : option PositionalEmbedding;
  layers : list EncoderLayer;
  normalize : bool;
  layer_norm : option LayerNorm;
  training : bool
}.

(** [[TransformerEncoderLayer(args) for i in range(n)]] *)
Fixpoint new_layers (args : Args) (n : nat) : M St (list EncoderLayer) :=
  match n with
  | 0 => ret []
  | S n' =>
      let* l := on_gen (new_TransformerEncoderLayer args) in
      let* _ := log (EvNewLayer l) in
      let* ls := new_layers args n' in
      ret (l :: ls)
  end.

Definition __init__ (args : Args) (embed_tokens : Embedding) (left_pad : bool) : M St t :=
  let embed_dim := embedding_dim embed_tokens in
  let padding_idx := emb_padding_idx embed_tokens in
  let embed_scale := sqrt (INR embed_dim) in
  let* embed_positions :=
    if negb (no_token_positional_embeddings args) then
      let* pos := on_gen (new_PositionalEmbedding (max_source_positions args) embed_dim
                            padding_idx left_pad (encoder_learned_pos args)) in
      ret (Some pos)
    else ret None in
  let* layers := new_layers args (encoder_layers args) in
  let normalize := encoder_normalize_before args in
  let* layer_norm :=
    if normalize then
      let* ln := on_gen (if fuse_layer_norm args then new_FusedLayerNorm embed_dim
                         else new_LayerNorm embed_dim) in
      ret (Some ln)
    else ret None in
  ret (mk (args_dropout args) (fuse_dropout_add args) (fuse_relu_dropout args)
          padding_idx (max_source_positions args) embed_tokens embed_scale
          embed_positions layers normalize layer_norm true).

(** [self.eval()] and [self.train(mode)] *)
Definition train (mode : bool) (self : t) : t :=
  mk (dropout self) (self_fuse_dropout_add self) (self_fuse_relu_dropout self)
     (padding_idx self) (self_max_source_positions self) (embed_tokens self)
     (embed_scale self) (embed_positions self) (layers self) (normalize self)
     (layer_norm self) mode.

(** [src_tokens.eq(v)]: a [TypeError] when [v] is None. *)
Definition eq_scalar (src_tokens : tensor Z) (v : option Z) : result (tensor bool) :=
  match v with
  | Some v => Ok (tensor_map (fun tok => Z.eqb tok v) src_tokens)
  | None => Raise TypeError
  end.

(** [mask.any()] *)
Definition any (mask : tensor bool) : bool :=
  existsb (item mask) (indices (shape mask)).

(** [x.contiguous()]: a copy with a dense layout, the same entries. *)
Definition contiguous {A} (x : tensor A) : tensor A := x.

(** [for layer in self.layers: x = layer(x, _encoder_padding_mask)] *)
Fixpoint run_layers (ls : list EncoderLayer) (mask : option (tensor bool)) (x : tensor R)
  : M St (tensor R) :=
  match ls with
  | [] => ret x
  | layer :: rest =>
      let* y := on_gen (layer_forward layer x mask) in
      let* _ := log (EvLayer layer x mask y) in
      run_layers rest mask y
  end.

Definition forward (self : t) (src_tokens : tensor Z) (src_lengths : tensor Z)
  : M St (tensor R * option (tensor bool)) :=
  let* e := lift_result (embed (embed_tokens self) src_tokens) in
  let* _ := log (EvEmbedTokens src_tokens e) in
  let x := tensor_map (Rmult (embed_scale self)) e in
  let* x :=
    match embed_positions self with
    | Some embed_positions =>
        let* pos := lift_result (positions embed_positions src_tokens) in
        let* _ := log (EvEmbedPositions src_tokens pos) in
        lift_result (tensor_iop Rplus x pos)
    | None => ret x
    end in
  let* y := on_gen (F_dropout x (dropout self) (training self)) in
  let* _ := log (EvDropout x (dropout self) (training self) y) in
  let* x :=
    if self_fuse_dropout_add self
    then let* xt := lift_result (transpose01 y) in ret (contiguous xt)
    else lift_result (transpose01 y) in
  let* encoder_padding_mask := lift_result (eq_scalar src_tokens (padding_idx self)) in
  let _encoder_padding_mask :=
    if negb (any encoder_padding_mask) then None else Some encoder_padding_mask in
  let* x := run_layers (layers self) _encoder_padding_mask x in
  let* x :=
    if normalize self then
      match layer_norm self with
      | Some ln =>
          let* z := lift_result (norm ln x) in
          let* _ := log (EvLayerNorm x z) in
          ret z
      | None => raise AttributeError
      end
    else ret x in
  ret (x, Some encoder_padding_mask).

End WithFramework.
End TransformerEncoder.

(** ** numpy arrays and [normalize]

    An entry of a float array is a finite number, an infinity or NaN.
    The arithmetic of finite numbers is that of the real numbers, except
    that a result whose magnitude reaches the overflow threshold of the
    array's float type is an infinity, as it is in numpy: rounding is
    not modelled, overflow is.  A zero carries no sign; the one zero
    [normalize] divides by is [max - min], which is +0. *)

Inductive npfloat : Type :=
| Num (r : R)
| PInf
| NInf
| NaN.

(** The float types of numpy. *)
Inductive dtype : Type :=
| float16
| float32
| float64.

Existing Class dtype.

Section FloatArithmetic.
Context {dt : dtype}.

(** The least magnitude that is rounded to an infinity: the largest
    finite number of the type plus half a unit in its last place. *)
Definition overflow_threshold : R :=
  match dt with
  | float16 => IZR (2 ^ 16 - 2 ^ 4)
  | float32 => IZR (2 ^ 128 - 2 ^ 103)
  | float64 => IZR (2 ^ 1024 - 2 ^ 970)
  end.

(** The float for the exact result [r]. *)
Definition fit (r : R) : npfloat :=
  if Rlt_bool (Rabs r) overflow_threshold then Num r
  else if Rlt_bool 0 r then PInf else NInf.

Definition fsub (a b : npfloat) : npfloat :=
  match a, b with
  | NaN, _ => NaN
  | _, NaN => NaN
  | Num x, Num y => fit (x - y)
  | Num _, PInf => NInf
  | Num _, NInf => PInf
  | PInf, PInf => NaN
  | PInf, _ => PInf
  | NInf, NInf => NaN
  | NInf, _ => NInf
  end.

(** Division: 0 / 0 and infinity / infinity are NaN, a nonzero number
    over zero is an infinity, a finite number over an infinity is zero. *)
Definition fdiv (a b : npfloat) : npfloat :=
  match a, b with
  | NaN, _ => NaN
  | _, NaN => NaN
  | Num x, Num y =>
      if Req_bool y 0 then
        if Req_bool x 0 then NaN else if Rlt_bool 0 x then PInf else NInf
      else fit (x / y)
  | Num _, _ => Num 0
  | PInf, Num y => if Rle_bool 0 y then PInf else NInf
  | NInf, Num y => if Rle_bool 0 y then NInf else PInf
  | _, _ => NaN
  end.
End FloatArithmetic.

(** The smaller and the larger of two entries; NaN when one is NaN. *)
Definition fmin (a b : npfloat) : npfloat :=
  match a, b with
  | NaN, _ => NaN
  | _, NaN => NaN
  | NInf, _ => NInf
  | _, NInf => NInf
  | PInf, c => c
  | c, PInf => c
  | Num x, Num y => Num (Rmin x y)
  end.

Definition fmax (a b : npfloat) : npfloat :=
  match a, b with
  | NaN, _ => NaN
  | _, NaN => NaN
  | PInf, _ => PInf
  | _, PInf => PInf
  | NInf, c => c
  | c, NInf => c
  | Num x, Num y => Num (Rmax x y)
  end.

(** [np.min(vals)] and [np.max(vals)]: a [ValueError] on an empty array;
    NaN as soon as one entry is NaN. *)
Definition np_min (vals : list npfloat) : result npfloat :=
  match vals with
  | [] => Raise ValueError
  | v :: vs => Ok (foldl fmin v vs)
  end.

Definition np_max (vals : list npfloat) : result npfloat :=
  match vals with
  | [] => Raise ValueError
  | v :: vs => Ok (foldl fmax v vs)
  end.

(** A float matrix is the list of its rows; arrays live in a store and
    are handled through their addresses, as Python handles objects. *)
Abbreviation ndarray := (list (list npfloat)).
Abbreviation store := (gmap nat ndarray).

(** A reference to an object the store does not hold: Python never
    hands one out. *)
Definition dangling : exn := FrameworkError 0.

(** [np.zeros_like(arr)]: a new array of the shape and type of [arr],
    all zeros. *)
Definition zeros_like (arr : nat) : M store nat :=
  fun h =>
    match h !! arr with
    | Some a =>
        let out := fresh (dom h) in
        (Ok out, <[out := (fun row => (fun _ => Num 0) <$> row) <$> a]> h)
    | None => (Raise dangling, h)
    end.

(** [arr.shape[0]] *)
Definition shape0 (arr : nat) : M store nat :=
  fun h =>
    match h !! arr with
    | Some a => (Ok (length a), h)
    | None => (Raise dangling, h)
    end.

(** [arr[rowno, :]] is a view: it holds no entries of its own, and every
    read of it reads the array. *)
Record view : Type := mkView { base : nat; row : nat }.

Definition get_view (arr rowno : nat) : M store view :=
  fun h =>
    match h !! arr with
    | Some a => if rowno <? length a then (Ok (mkView arr rowno), h) else (Raise IndexError, h)
    | None => (Raise dangling, h)
    end.

Definition read_view (v : view) : M store (list npfloat) :=
  fun h =>
    match h !! base v with
    | Some a =>
        match a !! row v with
        | Some r => (Ok r, h)
        | None => (Raise IndexError, h)
        end
    | None => (Raise dangling, h)
    end.

(** [out[rowno, :] = vals]: the row must exist and have the length of
    [vals]. *)
Definition set_row (out rowno : nat) (vals : list npfloat) : M store unit :=
  fun h =>
    match h !! out with
    | Some o =>
        match o !! rowno with
        | Some old =>
            if length vals =? length old
            then (Ok tt, <[out := <[rowno := vals]> o]> h)
            else (Raise ValueError, h)
        | None => (Raise IndexError, h)
        end
    | None => (Raise dangling, h)
    end.

Section NormalizeCode.
Context {dt : dtype}.

(** The body of the loop of [normalize]. *)
Definition normalize_row (arr out rowno : nat) : M store unit :=
  let* vals := get_view arr rowno in
  let* v := read_view vals in
  let* v1 := read_view vals in
  let* mn := lift_result (np_min v1) in
  let* v2 := read_view vals in
  let* mx := lift_result (np_max v2) in
  let* v3 := read_view vals in
  let* mn' := lift_result (np_min v3) in
  set_row out rowno ((fun e => fdiv (fsub e mn) (fsub mx mn')) <$> v).

Fixpoint normalize_loop (arr out : nat) (rownos : list nat) : M store unit :=
  match rownos with
  | [] => ret tt
  | rowno :: rest =>
      let* _ := normalize_row arr out rowno in
      normalize_loop arr out rest
  end.

Definition normalize (arr : nat) : M store nat :=
  let* out := zeros_like arr in
  let* n := shape0 arr in
  let* _ := normalize_loop arr out (seq 0 n) in
  ret out.

(** The value [normalize] computes, row by row, without the store. *)
Definition normalized_row (vals : list npfloat) : result (list npfloat) :=
  match np_min vals, np_max vals with
  | Ok mn, Ok mx => Ok ((fun e => fdiv (fsub e mn) (fsub mx mn)) <$> vals)
  | Raise e, _ => Raise e
  | _, Raise e => Raise e
  end.

Fixpoint normalized (a : ndarray) : result ndarray :=
  match a with
  | [] => Ok []
  | vals :: rest =>
      match normalized_row vals with
      | Ok r =>
          match normalized rest with
          | Ok rs => Ok (r :: rs)
          | Raise e => Raise e
          end
      | Raise e => Raise e
      end
  end.

End NormalizeCode.

(** *** Vocabulary for the properties of [normalize] *)

(** A matrix with [n] rows of [c] entries each. *)
Definition is_matrix (n c : nat) (a : ndarray) : Prop :=
  length a = n /\ Forall (fun vals => length vals = c) a.

(** Entries that are not below, or not above, the number [m]. *)
Definition at_least (m : R) (e : npfloat) : Prop :=
  match e with
  | Num x => (m <= x)%R
  | PInf => True
  | _ => False
  end.

Definition at_most (m : R) (e : npfloat) : Prop :=
  match e with
  | Num x => (x <= m)%R
  | NInf => True
  | _ => False
  end.

(** A number of the interval [0, 1]. *)
Definition unit_interval (e : npfloat) : Prop := exists y, e = Num y /\ (0 <= y <= 1)%R.

Section NormalizeVocabulary.
Context {dt : dtype}.

(** A row of finite numbers whose maximum is strictly above its minimum
    and whose range [max - min] does not overflow. *)
Definition spread (vals : list npfloat) : Prop :=
  exists mn mx,
    np_min vals = Ok (Num mn) /\ np_max vals = Ok (Num mx) /\
    (mn < mx)%R /\ (mx - mn < overflow_threshold)%R.

(** The entry [e] of a row of minimum [mn] and maximum [mx], as
    [normalize] rescales it. *)
Definition rescale (mn mx : R) (e : npfloat) : npfloat :=
  fdiv (fsub e (Num mn)) (fsub (Num mx) (Num mn)).
End NormalizeVocabulary.

(** The rows of [np.zeros_like] for the rows [a]. *)
Definition zero_rows (a : list (list npfloat)) : list (list npfloat) :=
  (fun vals : list npfloat => (fun _ => Num 0) <$> vals) <$> a.

(** The stores that differ from [h] at most at the address [out]. *)
Definition same_except (out : nat) (h h' : store) : Prop :=
  forall p, p <> out -> h' !! p = h !! p.

(** *** Vocabulary for the properties of the encoder *)

Section EncoderVocabulary.
Context `{Generator}.

(** The calls of the layers [ls] one after another, the first on [x]
    and the generator [g], each next one on the result and the generator
    the one before has left, the last returning [z] and leaving [g'];
    all with the same mask. *)
Inductive layer_calls (mask : option (tensor bool))
  : list EncoderLayer -> Rng -> tensor R -> list Event -> Rng -> tensor R -> Prop :=
| layer_calls_nil g x : layer_calls mask [] g x [] g x
| layer_calls_cons l ls g x g1 y evs g' z :
    layer_forward l x mask g = (Ok y, g1) ->
    layer_calls mask ls g1 y evs g' z ->
    layer_calls mask (l :: ls) g x (EvLayer l x mask y :: evs) g' z.

(** A computation whose result does not depend on the state it starts
    from and that leaves the generator as it was. *)
Definition generator_free {A} (c : M St A) : Prop :=
  exists r, forall st, (c st).1 = r /\ gen (c st).2 = gen st.

(** The padding mask of [forward] for the padding index [p], and the
    mask it hands to the layers. *)
Definition padding_mask (p : Z) (src_tokens : tensor Z) : tensor bool :=
  tensor_map (fun tok => Z.eqb tok p) src_tokens.

Definition layers_mask (p : Z) (src_tokens : tensor Z) : option (tensor bool) :=
  if negb (TransformerEncoder.any (padding_mask p src_tokens)) then None
  else Some (padding_mask p src_tokens).
End EncoderVocabulary.

Section FrameworkVocabulary.
Context `{Framework}.

End FrameworkVocabulary.

(** A small framework to run the encoder on: layers and normalization that
    return their input, embeddings that are constant. *)
Definition identity_layer : @EncoderLayer keep_all :=
  mkEncoderLayer (fun x _ g => (Ok x, g)).

Definition example_framework : @Framework keep_all :=
  {| new_PositionalEmbedding := fun _ d _ _ _ g =>
       (Ok (mkPositionalEmbedding
              (fun src => Ok (mkTensor (shape src ++ [d]) (fun _ => 0%R)))), g);
     new_TransformerEncoderLayer := fun _ g => (Ok identity_layer, g);
     new_FusedLayerNorm := fun _ g => (Ok (mkLayerNorm Ok), g);
     new_LayerNorm := fun _ g => (Ok (mkLayerNorm Ok), g) |}.

Definition example_embedding : Embedding :=
  mkEmbedding 4 (Some 1%Z) (fun src => Ok (mkTensor (shape src ++ [4]) (fun _ => 1%R))).

Definition example_args : Args :=
  mkArgs 0 true false 1024 false false 2 true false.

Definition example_tokens : tensor Z :=
  mkTensor [1; 3] (fun idx => if idx_at idx 1 =? 2 then 2%Z else 5%Z).

Definition example_state : @St keep_all := @mkSt keep_all 0 [].

Definition example_encoder : @TransformerEncoder.t keep_all :=
  TransformerEncoder.mk 0 true false (Some 1%Z) 1024 example_embedding (sqrt (INR 4))
    (Some (mkPositionalEmbedding
             (fun src => Ok (mkTensor (shape src ++ [4]) (fun _ => 0%R)))))
    [identity_layer; identity_layer] true (Some (mkLayerNorm Ok)) false.




(** A generator whose draws differ from call to call: the mask keeps
    every entry in an even state and none in an odd one. *)
Definition flip : Generator :=
  {| Rng := nat;
     bernoulli := fun _ s g => (mkTensor s (fun _ => Nat.even g), S g) |}.

(** An encoder layer with a dropout of its own, as the layers of the
    framework have, and an encoder with that layer whose own dropout
    probability is 0. *)
Definition dropout_layer : @EncoderLayer flip :=
  mkEncoderLayer (fun x _ => @F_dropout flip x (1 / 2) true).

Definition drawing_encoder : @TransformerEncoder.t flip :=
  TransformerEncoder.mk 0 true false (Some 1%Z) 1024 example_embedding (sqrt (INR 4))
    None [dropout_layer] false None true.

(** Two stores to run [normalize] on. *)
Definition one_row_store : store := {[0 := [[Num 1; Num 3]]]}.

Definition constant_row_store : store := {[0 := [[Num 1; Num 1]]]}.

(** ** More vocabulary and examples *)

(** More stores to run [normalize] on. *)
Definition nan_row_store : store := {[0 := [[Num 1; NaN]]]}.

Definition no_column_store : store := {[0 := [[]; []]]}.

(** A row of a float64 array whose range overflows, and a store that
    holds it. *)
Definition overflow_row : list npfloat := [Num (-1e308); Num 0; Num 1e308].

Definition overflow_store : store := {[0 := [overflow_row]]}.

(** An embedding built without a padding index, and arguments that ask
    for no positional embedding. *)
Definition no_padding_embedding : Embedding :=
  mkEmbedding 4 None (fun src => Ok (mkTensor (shape src ++ [4]) (fun _ => 1%R))).

Definition no_positions_args : Args :=
  mkArgs 0 true false 1024 false true 2 true false.

(** Arguments whose dropout is not a probability. *)
Definition bad_dropout_args : Args :=
  mkArgs 2 true false 1024 false false 2 true false.

(** ** The tick labels of the attention heat map

    Python strings are lists of characters. *)

(** [s.replace(old, new)] for a one-character [old]. *)
Fixpoint str_replace (old : ascii) (new : list ascii) (s : list ascii) : list ascii :=
  match s with
  | [] => []
  | c :: s' => (if Ascii.eqb c old then new else [c]) ++ str_replace old new s'
  end.

(** [s.split(sep)] for a one-character [sep]: the pieces between the
    separators, empty pieces included. *)
Fixpoint str_split (sep : ascii) (s : list ascii) : list (list ascii) :=
  match s with
  | [] => [[]]
  | c :: s' =>
      if Ascii.eqb c sep then [] :: str_split sep s'
      else match str_split sep s' with
           | w :: ws => (c :: w) :: ws
           | [] => [[c]]
           end
  end.

Definition space : ascii := " "%char.
Definition dot : ascii := "."%char.
Definition comma : ascii := ","%char.

(** [sentence += " EOS"] and
    [sentence.replace(".", " .").replace(",", " ,").split(" ")] *)
Definition tick_labels (sentence : list ascii) : list (list ascii) :=
  let sentence := sentence ++ list_ascii_of_string " EOS" in
  str_split space (str_replace comma [space; comma] (str_replace dot [space; dot] sentence)).

(** The number of characters of [s] that satisfy [p]. *)
Fixpoint count (p : ascii -> bool) (s : list ascii) : nat :=
  match s with
  | [] => 0
  | c :: s' => (if p c then 1 else 0) + count p s'
  end.

(** [s] without the characters that satisfy [p]. *)
Fixpoint without (p : ascii -> bool) (s : list ascii) : list ascii :=
  match s with
  | [] => []
  | c :: s' => if p c then without p s' else c :: without p s'
  end.

Definition is_char (c : ascii) : ascii -> bool := fun c' => Ascii.eqb c' c.

(** * Properties *)

(** ** Results, shapes and broadcasting *)

Lemma Ok_inj {A} (a b : A) : Ok a = Ok b -> a = b.
Proof. intros Hab. congruence. Qed.

Lemma Rle_bool_true x y : (x <= y)%R -> Rle_bool x y = true.
Proof. intros Hxy. unfold Rle_bool. destruct (Rle_dec x y); [reflexivity | contradiction]. Qed.

Lemma Req_bool_true x y : x = y -> Req_bool x y = true.
Proof. intros Hxy. unfold Req_bool. destruct (Req_dec_T x y); [reflexivity | contradiction]. Qed.

Lemma Req_bool_false x y : x <> y -> Req_bool x y = false.
Proof. intros Hxy. unfold Req_bool. destruct (Req_dec_T x y); [contradiction | reflexivity]. Qed.

Lemma broadcast_rev_refl a : broadcast_rev a a = Some a.
Proof.
  induction a as [|x a IH]; [reflexivity|].
  cbn [broadcast_rev]. rewrite Nat.eqb_refl, IH. reflexivity.
Qed.

Lemma broadcast_shapes_refl a : broadcast_shapes a a = Some a.
Proof.
  unfold broadcast_shapes. rewrite broadcast_rev_refl. cbn. rewrite reverse_involutive.
  reflexivity.
Qed.

Lemma angle_shape ml h : broadcast_shapes [ml; 1] [h] = Some [ml; h].
Proof.
  unfold broadcast_shapes. cbn -[Nat.eqb].
  destruct (1 =? h) eqn:E; cbn -[Nat.eqb].
  - apply Nat.eqb_eq in E. subst. reflexivity.
  - reflexivity.
Qed.

Lemma broadcast_batch B T d : broadcast_shapes [B; T; d] [1; T; d] = Some [B; T; d].
Proof.
  unfold broadcast_shapes. cbn -[Nat.eqb]. rewrite !Nat.eqb_refl. cbn -[Nat.eqb].
  destruct (B =? 1) eqn:E; cbn -[Nat.eqb]; reflexivity.
Qed.

Lemma bsel d i : i < d -> (if d =? 1 then 0 else i) = i.
Proof.
  intros Hi. destruct (d =? 1) eqn:E; [apply Nat.eqb_eq in E; lia | reflexivity].
Qed.

Lemma bidx_2_2 a b i j :
  bidx [a; b] [i; j] = [if a =? 1 then 0 else i; if b =? 1 then 0 else j].
Proof. reflexivity. Qed.

Lemma bidx_1_2 b i j : bidx [b] [i; j] = [if b =? 1 then 0 else j].
Proof. reflexivity. Qed.

Lemma bidx_3_3 a b c i j k :
  bidx [a; b; c] [i; j; k] =
    [if a =? 1 then 0 else i; if b =? 1 then 0 else j; if c =? 1 then 0 else k].
Proof. reflexivity. Qed.

(** ** The table of positional encodings *)

Section PositionalTable.
Import PositionalEncoding.

Lemma even_col i : (0 <=? 2 * i) && ((2 * i - 0) mod 2 =? 0) = true.
Proof. rewrite Nat.sub_0_r, Nat.mul_comm, Nat.Div0.mod_mul. reflexivity. Qed.

Lemma even_col_not_odd i : (1 <=? 2 * i) && ((2 * i - 1) mod 2 =? 0) = false.
Proof.
  destruct i as [|i]; [reflexivity|].
  replace (2 * S i - 1) with (1 + i * 2) by lia.
  rewrite Nat.Div0.mod_add. rewrite andb_false_r. reflexivity.
Qed.

Lemma odd_col i : (1 <=? 2 * i + 1) && ((2 * i + 1 - 1) mod 2 =? 0) = true.
Proof.
  replace (2 * i + 1 - 1) with (i * 2) by lia.
  rewrite Nat.Div0.mod_mul.
  destruct (Nat.leb_spec 1 (2 * i + 1)); [reflexivity | lia].
Qed.

Lemma set_cols_step2_item start dst src out :
  set_cols_step2 start dst src = Ok out ->
  shape out = shape dst /\
  forall i j,
    item out [i; j] =
      if (start <=? j) && ((j - start) mod 2 =? 0)
      then item src (bidx (shape src) [i; (j - start) / 2])
      else item dst [i; j].
Proof.
  unfold set_cols_step2.
  destruct (shape dst) as [|r [|c [|? ?]]] eqn:Es; try discriminate.
  destruct (decide _); [|discriminate].
  intros Heq. apply Ok_inj in Heq. subst out. split; reflexivity.
Qed.

Lemma angle_item ml d pos k angle :
  d <> 0 -> pos < ml -> 2 * k < d ->
  tensor_binop Rmult (mkTensor [ml; 1] (fun idx => INR (idx_at (delete 1 idx) 0)))
    (tensor_map exp (tensor_map (fun v => (v * - (ln 10000 / INR d))%R) (arange_step2 d)))
    = Ok angle ->
  shape angle = [ml; (d + 1) / 2] /\
  item angle (bidx (shape angle) [pos; k]) =
    (INR pos * exp (INR (2 * k) * - (ln 10000 / INR d)))%R.
Proof.
  intros Hd Hpos Hk. unfold tensor_binop.
  change (shape (mkTensor [ml; 1] _)) with [ml; 1].
  change (shape (tensor_map _ _)) with [(d + 1) / 2].
  rewrite angle_shape. intros Heq. apply Ok_inj in Heq. subst angle.
  split; [reflexivity|].
  change (shape (mkTensor ?s _)) with s.
  assert (Hk' : k < (d + 1) / 2) by (apply Nat.div_le_lower_bound; lia).
  rewrite bidx_2_2, (bsel ml pos Hpos), (bsel _ k Hk').
  unfold item at 1. rewrite bidx_2_2, bidx_1_2, (bsel ml pos Hpos), (bsel _ k Hk').
  reflexivity.
Qed.

(** What a successful [__init__] has built, in the terms of the code:
    [exp] of a multiple of [-(log 10000 / d_model)]. *)
Lemma init_inv d p ml self :
  __init__ d p ml = Ok self ->
  d <> 0 /\ (0 <= p <= 1)%R /\ dropout_p self = p /\ training self = true /\
  shape (pe self) = [1; ml; d] /\
  forall pos i, pos < ml ->
    (2 * i < d ->
     item (pe self) [0; pos; 2 * i] =
       sin (INR pos * exp (INR (2 * i) * - (ln 10000 / INR d)))) /\
    (2 * i + 1 < d ->
     item (pe self) [0; pos; 2 * i + 1] =
       cos (INR pos * exp (INR (2 * i) * - (ln 10000 / INR d)))).
Proof.
  unfold __init__.
  assert (Hp : negb (Rle_bool 0 p && Rle_bool p 1) = false -> (0 <= p <= 1)%R).
  { unfold Rle_bool. destruct (Rle_dec 0 p), (Rle_dec p 1); cbn; try discriminate.
    intros _. split; assumption. }
  destruct (negb _); [discriminate|]. specialize (Hp eq_refl).
  change (unsqueeze 1 (arange ml))
    with (Ok (mkTensor [ml; 1] (fun idx => INR (idx_at (delete 1 idx) 0)))).
  unfold div_term. destruct (d =? 0) eqn:Ed; [discriminate|].
  apply Nat.eqb_neq in Ed.
  destruct (tensor_binop _ _ _) as [angle|] eqn:Ea; [|discriminate].
  destruct (set_cols_step2 0 _ _) as [pe1|] eqn:E1; [|discriminate].
  destruct (set_cols_step2 1 _ _) as [pe2|] eqn:E2; [|discriminate].
  apply set_cols_step2_item in E1 as [S1 I1].
  apply set_cols_step2_item in E2 as [S2 I2].
  unfold unsqueeze. rewrite S2, S1.
  change (0 <=? length (shape (zeros [ml; d]))) with true.
  intros Heq. apply Ok_inj in Heq. subst self.
  split; [exact Ed|]. split; [exact Hp|]. do 3 (split; [reflexivity|]).
  intros pos i Hpos.
  change (item (pe {| dropout_p := p; training := true; pe := ?t |}) ?idx) with (item t idx).
  split; intros Hi; unfold item at 1; change (delete 0 [0; pos; ?j]) with [pos; j].
  - rewrite I2, even_col_not_odd, I1, even_col.
    rewrite Nat.sub_0_r, (Nat.mul_comm 2 i), Nat.div_mul by lia.
    change (shape (tensor_map sin angle)) with (shape angle).
    unfold tensor_map at 1, item at 1.
    destruct (angle_item ml d pos i angle Ed Hpos ltac:(lia) Ea) as [_ ->].
    rewrite (Nat.mul_comm i 2). reflexivity.
  - rewrite I2, odd_col.
    replace (2 * i + 1 - 1) with (i * 2) by lia. rewrite Nat.div_mul by lia.
    change (shape (tensor_map cos angle)) with (shape angle).
    unfold tensor_map at 1, item at 1.
    destruct (angle_item ml d pos i angle Ed Hpos ltac:(lia) Ea) as [_ ->].
    reflexivity.
Qed.

(** [__init__] succeeds on an even, positive [d_model] and a dropout
    probability in [0, 1]. *)
Lemma init_total d p ml :
  d <> 0 -> d mod 2 = 0 -> (0 <= p <= 1)%R -> exists self, __init__ d p ml = Ok self.
Proof.
  intros Hd Heven [Hp0 Hp1]. unfold __init__.
  rewrite (Rle_bool_true 0 p Hp0), (Rle_bool_true p 1 Hp1). cbn [andb negb].
  change (unsqueeze 1 (arange ml))
    with (Ok (mkTensor [ml; 1] (fun idx => INR (idx_at (delete 1 idx) 0)))).
  unfold div_term. destruct (d =? 0) eqn:Ed; [apply Nat.eqb_eq in Ed; contradiction|].
  unfold tensor_binop.
  change (shape (mkTensor [ml; 1] _)) with [ml; 1].
  change (shape (tensor_map _ _)) with [(d + 1) / 2].
  rewrite angle_shape.
  assert (H0 : strided_cols 0 d = (d + 1) / 2).
  { unfold strided_cols. rewrite Nat.sub_0_r. reflexivity. }
  assert (H1 : strided_cols 1 d = (d + 1) / 2).
  { unfold strided_cols. replace (d - 1 + 1) with d by lia.
    pose proof (Nat.div_mod_eq d 2) as Hdm. rewrite Heven in Hdm.
    replace (d + 1) with (1 + d / 2 * 2) by lia.
    rewrite Nat.div_add by lia. cbn. reflexivity. }
  unfold set_cols_step2.
  change (shape (zeros [ml; d])) with [ml; d].
  change (shape (tensor_map ?f (mkTensor ?s _))) with s.
  cbv beta iota zeta.
  rewrite H0. destruct (decide _) as [_|Hn]; [|destruct Hn; apply broadcast_shapes_refl].
  change (shape (mkTensor ?s _)) with s.
  cbv beta iota zeta.
  rewrite H1. destruct (decide _) as [_|Hn]; [|destruct Hn; apply broadcast_shapes_refl].
  unfold unsqueeze. change (shape (mkTensor ?s _)) with s.
  change (0 <=? length [ml; d]) with true.
  eexists. reflexivity.
Qed.

Lemma broadcast_cols_inv r a b :
  broadcast_shapes [r; a] [r; b] = Some [r; a] -> a = b \/ b = 1.
Proof.
  unfold broadcast_shapes. cbn -[Nat.eqb].
  destruct (a =? b) eqn:Eab; [apply Nat.eqb_eq in Eab; auto|].
  destruct (a =? 1) eqn:Ea.
  - rewrite Nat.eqb_refl. cbn -[Nat.eqb]. intros Heq. injection Heq as Heq. auto.
  - destruct (b =? 1) eqn:Eb; [apply Nat.eqb_eq in Eb; auto | discriminate].
Qed.

(** [__init__] raises on [d_model = 0] (the division) and on an odd
    [d_model] from 3 on (the cosines have one column more than the odd
    columns of the table). *)
Lemma init_raises d p ml :
  (0 <= p <= 1)%R ->
  (d = 0 -> __init__ d p ml = Raise ZeroDivisionError) /\
  (d mod 2 = 1 -> 3 <= d -> __init__ d p ml = Raise RuntimeError).
Proof.
  intros [Hp0 Hp1]. unfold __init__.
  rewrite (Rle_bool_true 0 p Hp0), (Rle_bool_true p 1 Hp1). cbn [andb negb].
  change (unsqueeze 1 (arange ml))
    with (Ok (mkTensor [ml; 1] (fun idx => INR (idx_at (delete 1 idx) 0)))).
  unfold div_term. split.
  - intros ->. reflexivity.
  - intros Hodd Hd. destruct (d =? 0) eqn:Ed; [apply Nat.eqb_eq in Ed; lia|].
    unfold tensor_binop.
    change (shape (mkTensor [ml; 1] _)) with [ml; 1].
    change (shape (tensor_map _ _)) with [(d + 1) / 2].
    rewrite angle_shape.
    pose proof (Nat.div_mod_eq d 2) as Hdm. rewrite Hodd in Hdm.
    assert (Hhalf : (d + 1) / 2 = d / 2 + 1).
    { replace (d + 1) with ((d / 2 + 1) * 2) by lia. apply Nat.div_mul. lia. }
    assert (H0 : strided_cols 0 d = (d + 1) / 2).
    { unfold strided_cols. rewrite Nat.sub_0_r. reflexivity. }
    assert (H1 : strided_cols 1 d = d / 2).
    { unfold strided_cols. replace (d - 1 + 1) with d by lia. reflexivity. }
    unfold set_cols_step2.
    change (shape (zeros [ml; d])) with [ml; d].
    change (shape (tensor_map ?f (mkTensor ?s _))) with s.
    cbv beta iota zeta.
    rewrite H0. destruct (decide _) as [_|Hn]; [|destruct Hn; apply broadcast_shapes_refl].
    change (shape (mkTensor ?s _)) with s.
    cbv beta iota zeta.
    rewrite H1. destruct (decide _) as [Hb|_]; [|reflexivity].
    apply broadcast_cols_inv in Hb. lia.
Qed.

Lemma div_term_power d i :
  d <> 0 ->
  exp (INR (2 * i) * - (ln 10000 / INR d)) = Rpower 10000 (- (2 * INR i) / INR d).
Proof.
  intros Hd. unfold Rpower. f_equal. rewrite mult_INR. simpl (INR 2).
  assert (INR d <> 0%R) by (apply not_0_INR; exact Hd). field. assumption.
Qed.

(** C1. The table [pe] that [PositionalEncoding.__init__] registers
    follows the closed formula: at every position [pos < max_len] and
    every [i < d_model / 2], entry [2i] is [sin (pos * 10000^(-2i/d_model))]
    and entry [2i+1] is [cos (pos * 10000^(-2i/d_model))]; and the row of
    position 0 is [0, 1, 0, 1, ...]. *)
Theorem positional_encoding_closed_form d_model p max_len self :
  __init__ d_model p max_len = Ok self ->
  shape (pe self) = [1; max_len; d_model] /\
  (forall pos i, pos < max_len -> i < d_model / 2 ->
     item (pe self) [0; pos; 2 * i] =
       sin (INR pos * Rpower 10000 (- (2 * INR i) / INR d_model)) /\
     item (pe self) [0; pos; 2 * i + 1] =
       cos (INR pos * Rpower 10000 (- (2 * INR i) / INR d_model))) /\
  (0 < max_len -> pe_row self 0 d_model = alternating d_model).
Proof.
  intros Hinit.
  destruct (init_inv _ _ _ _ Hinit) as (Hd & _ & _ & _ & Hshape & Hitem).
  split; [exact Hshape|]. split.
  - intros pos i Hpos Hi.
    assert (Hlt : 2 * i + 1 < d_model).
    { pose proof (Nat.div_mod_eq d_model 2). lia. }
    destruct (Hitem pos i Hpos) as [Hs Hc].
    rewrite Hs, Hc by lia. rewrite (div_term_power d_model i Hd). split; reflexivity.
  - intros Hlen. unfold pe_row, alternating.
    apply map_ext_in. intros j Hj. apply in_seq in Hj.
    destruct (Hitem 0 (j / 2) Hlen) as [Hs Hc].
    pose proof (Nat.div_mod_eq j 2) as Hdm.
    pose proof (Nat.mod_upper_bound j 2 ltac:(lia)) as Hub.
    destruct (Nat.even j) eqn:Ej.
    + apply Nat.even_spec in Ej. destruct Ej as [k ->].
      replace (2 * k / 2) with k in Hs by (rewrite Nat.mul_comm, Nat.div_mul; lia).
      rewrite Hs by lia. cbn [INR]. rewrite Rmult_0_l. apply sin_0.
    + assert (Ho : Nat.odd j = true) by (rewrite <- Nat.negb_even, Ej; reflexivity).
      apply Nat.odd_spec in Ho. destruct Ho as [k ->].
      replace ((2 * k + 1) / 2) with k in Hc
        by (rewrite Nat.mul_comm, Nat.div_add_l by lia; cbn; lia).
      rewrite Hc by lia. cbn [INR]. rewrite Rmult_0_l. apply cos_0.
Qed.

Lemma positional_encoding_closed_form_witness :
  exists self,
    __init__ 4 0 3 = Ok self /\
    item (pe self) [0; 1; 2 * 1] = sin (INR 1 * Rpower 10000 (- (2 * INR 1) / INR 4)).
Proof.
  destruct (init_total 4 0 3 ltac:(lia) eq_refl ltac:(lra)) as [self Hself].
  exists self. split; [exact Hself|].
  destruct (positional_encoding_closed_form 4 0 3 self Hself) as (_ & Hform & _).
  apply (Hform 1 1); [lia | cbn; lia].
Defined.

End PositionalTable.

(** ** Dropout *)

Section DropoutFacts.
Context `{Generator}.

Lemma F_dropout_shape x p tr g y g' :
  F_dropout x p tr g = (Ok y, g') -> shape y = shape x.
Proof.
  unfold F_dropout, raise, ret.
  destruct (negb _); [discriminate|].
  destruct (_ || _); [intros [= <- _]; reflexivity|].
  destruct (Req_bool p 1); [intros [= <- _]; reflexivity|].
  destruct (bernoulli _ _ g) as [mask g2]. intros [= <- _]. reflexivity.
Qed.

Lemma F_dropout_ok x p tr g :
  (0 <= p <= 1)%R -> exists y g', F_dropout x p tr g = (Ok y, g').
Proof.
  intros [Hp0 Hp1]. unfold F_dropout, raise, ret.
  rewrite (Rle_bool_true 0 p Hp0), (Rle_bool_true p 1 Hp1). cbn [andb negb].
  destruct (_ || _); [eauto|].
  destruct (Req_bool p 1); [eauto|].
  destruct (bernoulli _ _ g) as [mask g2]. eauto.
Qed.

(** Inactive dropout neither reads nor advances the generator. *)
Lemma F_dropout_inactive x p tr :
  tr = false \/ p = 0%R -> exists r, forall g, F_dropout x p tr g = (r, g).
Proof.
  intros Hoff. unfold F_dropout, raise, ret.
  destruct (negb _); [eauto|].
  assert (Hor : negb tr || Req_bool p 0 || (numel (shape x) =? 0) = true).
  { destruct Hoff as [-> | ->]; [reflexivity|].
    rewrite (Req_bool_true 0 0 eq_refl), orb_true_r. reflexivity. }
  rewrite Hor. eauto.
Qed.

Lemma F_dropout_identity x p tr g :
  (0 <= p <= 1)%R -> tr = false \/ p = 0%R -> F_dropout x p tr g = (Ok x, g).
Proof.
  intros [Hp0 Hp1] Hoff. unfold F_dropout, raise, ret.
  rewrite (Rle_bool_true 0 p Hp0), (Rle_bool_true p 1 Hp1). cbn [andb negb].
  assert (Hor : negb tr || Req_bool p 0 || (numel (shape x) =? 0) = true).
  { destruct Hoff as [-> | ->]; [reflexivity|].
    rewrite (Req_bool_true 0 0 eq_refl), orb_true_r. reflexivity. }
  rewrite Hor. reflexivity.
Qed.
End DropoutFacts.

(** Active dropout, for contrast: in training mode with 0 < p < 1 a
    non-empty tensor makes dropout draw a mask, which advances the
    generator. *)
Lemma active_dropout_draws (x : tensor R) (p : R) (g : @Rng keep_all) :
  (0 < p < 1)%R -> numel (shape x) <> 0 ->
  (@F_dropout keep_all x p true g).2 = S g.
Proof.
  intros [Hp0 Hp1] Hn. unfold F_dropout.
  rewrite (Rle_bool_true 0 p), (Rle_bool_true p 1) by lra.
  rewrite (Req_bool_false p 0), (Req_bool_false p 1) by lra.
  destruct (numel (shape x) =? 0) eqn:E; [apply Nat.eqb_eq in E; contradiction|].
  reflexivity.
Qed.

(** ** PositionalEncoding.forward *)

Section PositionalForward.
Import PositionalEncoding.
Context `{Generator}.

(** [forward], once the sequence length of [x] and the shape of the
    table are known. *)
Lemma forward_unfold self x n ml d g :
  shape x !! 1 = Some n -> shape (pe self) = [1; ml; d] ->
  forward self x g =
    match tensor_binop Rplus x (mkTensor [1; Nat.min n ml; d] (item (pe self))) with
    | Ok s => F_dropout s (dropout_p self) (training self) g
    | Raise e => (Raise e, g)
    end.
Proof.
  intros Hn Hpe. unfold forward, bind, lift_result, size, slice_dim1.
  rewrite Hn, Hpe. destruct (tensor_binop _ _ _); reflexivity.
Qed.

(** On embeddings of shape (B, T, d_model) with T <= max_len the sum
    [x + pe[:, :T]] is defined, has the shape of [x], and adds row [t] of
    the table to every vector at position [t]. *)
Lemma embedding_plus_table (x pe : tensor R) B T d ml :
  shape x = [B; T; d] -> T <= ml ->
  exists sum,
    tensor_binop Rplus x (mkTensor [1; Nat.min T ml; d] (item pe)) = Ok sum /\
    shape sum = shape x /\
    forall b t c, b < B -> t < T -> c < d ->
      item sum [b; t; c] = (item x [b; t; c] + item pe [0%nat; t; c])%R.
Proof.
  intros Hx HT. unfold tensor_binop. rewrite Hx.
  change (shape (mkTensor ?s _)) with s.
  rewrite Nat.min_l by exact HT. rewrite broadcast_batch.
  eexists. split; [reflexivity|]. split; [reflexivity|].
  intros b t c Hb Ht Hc. unfold item at 1.
  rewrite !bidx_3_3, (bsel B b Hb), (bsel T t Ht), (bsel d c Hc).
  reflexivity.
Qed.

Lemma forward_inactive self x :
  training self = false \/ dropout_p self = 0%R ->
  exists r, forall g, forward self x g = (r, g).
Proof.
  intros Hoff. unfold forward, bind, lift_result.
  destruct (size x 1) as [n|e]; [|eauto].
  destruct (slice_dim1 n (pe self)) as [pe_n|e]; [|eauto].
  destruct (tensor_binop Rplus x pe_n) as [x'|e]; [|eauto].
  apply F_dropout_inactive. exact Hoff.
Qed.

(** [forward] on embeddings of shape (B, T, d_model), T <= max_len:
    dropout of the sum with the table. *)
Lemma forward_on_embeddings d_model p max_len self0 mode B T x g :
  __init__ d_model p max_len = Ok self0 ->
  shape x = [B; T; d_model] -> T <= max_len ->
  exists sum,
    tensor_binop Rplus x (mkTensor [1; Nat.min T max_len; d_model] (item (pe self0))) = Ok sum /\
    forward (train mode self0) x g = F_dropout sum p mode g.
Proof.
  intros Hinit Hx HT.
  destruct (init_inv _ _ _ _ Hinit) as (_ & _ & Hdp & _ & Hshape & _).
  destruct (embedding_plus_table x (pe self0) B T d_model max_len Hx HT)
    as (sum & Hsum & _).
  exists sum. split; [exact Hsum|].
  rewrite (forward_unfold _ x T max_len d_model g); [| rewrite Hx; reflexivity | exact Hshape].
  change (pe (train mode self0)) with (pe self0). rewrite Hsum.
  change (dropout_p (train mode self0)) with (dropout_p self0). rewrite Hdp.
  reflexivity.
Qed.

(** C4, amended. For an input of shape (B, T, d_model) with
    T <= max_len, [PositionalEncoding.forward] returns
    [dropout(x + pe[:, :T])]: the sum has the shape of [x] and its entry
    at (b, t, c) is [x[b, t, c] + pe[0, t, c]], and the tensor returned has
    the shape of [x]. *)
Theorem forward_adds_positional_encoding d_model p max_len self0 mode B T x g :
  __init__ d_model p max_len = Ok self0 ->
  shape x = [B; T; d_model] -> T <= max_len ->
  exists sum,
    shape sum = shape x /\
    (forall b t c, b < B -> t < T -> c < d_model ->
       item sum [b; t; c] = (item x [b; t; c] + item (pe self0) [0%nat; t; c])%R) /\
    forward (train mode self0) x g = F_dropout sum p mode g /\
    exists y g', forward (train mode self0) x g = (Ok y, g') /\ shape y = shape x.
Proof.
  intros Hinit Hx HT.
  destruct (init_inv _ _ _ _ Hinit) as (_ & Hp & _).
  destruct (forward_on_embeddings d_model p max_len self0 mode B T x g Hinit Hx HT)
    as (sum & Hsum & Hfw).
  destruct (embedding_plus_table x (pe self0) B T d_model max_len Hx HT)
    as (sum' & Hsum' & Hss & Hitem).
  rewrite Hsum in Hsum'. apply Ok_inj in Hsum'. subst sum'.
  exists sum. split; [exact Hss|]. split; [exact Hitem|]. split; [exact Hfw|].
  destruct (F_dropout_ok sum p mode g Hp) as (y & g' & Hy).
  exists y, g'. rewrite Hfw. split; [exact Hy|].
  rewrite (F_dropout_shape _ _ _ _ _ _ Hy). exact Hss.
Qed.

End PositionalForward.

Section PositionalForwardExamples.
Import PositionalEncoding.

Lemma forward_adds_positional_encoding_witness :
  exists self0,
    __init__ 4 0 3 = Ok self0 /\
    exists y g', @forward keep_all (train false self0) (zeros [2; 3; 4]) 0 = (Ok y, g') /\
                 shape y = [2; 3; 4].
Proof.
  destruct (init_total 4 0 3 ltac:(lia) eq_refl ltac:(lra)) as [self0 Hself].
  exists self0. split; [exact Hself|].
  destruct (@forward_adds_positional_encoding keep_all 4 0 3 self0 false 2 3
              (zeros [2; 3; 4]) 0 Hself eq_refl ltac:(lia))
    as (sum & _ & _ & _ & y & g' & Hy & Hs).
  exists y, g'. split; [exact Hy | exact Hs].
Defined.

(** C4 as stated fails: a tensor of shape (1, 1, 1) has sequence length
    1 <= 500 = max_len, and with d_model = 2 the sum broadcasts to shape (1, 1, 2). *)
Lemma forward_shape_counterexample :
  exists self,
    __init__ 2 0 default_max_len = Ok self /\
    size (zeros [1; 1; 1]) 1 = Ok 1 /\ 1 <= default_max_len /\
    forall (G : Generator) (g : Rng),
      exists y, forward self (zeros [1; 1; 1]) g = (Ok y, g) /\
                shape y = [1; 1; 2] /\ shape y <> shape (zeros [1; 1; 1]).
Proof.
  destruct (init_total 2 0 default_max_len ltac:(lia) eq_refl ltac:(lra)) as [self Hself].
  exists self. split; [exact Hself|]. split; [reflexivity|]. split; [unfold default_max_len; lia|].
  intros G g.
  destruct (init_inv _ _ _ _ Hself) as (_ & Hp & Hdp & _ & Hshape & _).
  rewrite (forward_unfold self (zeros [1; 1; 1]) 1 default_max_len 2 g eq_refl Hshape).
  unfold tensor_binop.
  change (broadcast_shapes _ _) with (Some [1; 1; 2]). cbv beta iota.
  rewrite F_dropout_identity; [| rewrite Hdp; exact Hp | right; exact Hdp].
  eexists. split; [reflexivity|]. split; [reflexivity|]. discriminate.
Qed.

(** A tensor whose last dimension is neither 1 nor d_model makes
    [forward] raise, whatever its sequence length. *)
Lemma forward_raises_counterexample :
  exists self,
    __init__ 2 0 default_max_len = Ok self /\
    size (zeros [1; 1; 3]) 1 = Ok 1 /\ 1 <= default_max_len /\
    forall (G : Generator) (g : Rng),
      forward self (zeros [1; 1; 3]) g = (Raise RuntimeError, g).
Proof.
  destruct (init_total 2 0 default_max_len ltac:(lia) eq_refl ltac:(lra)) as [self Hself].
  exists self. split; [exact Hself|]. split; [reflexivity|]. split; [unfold default_max_len; lia|].
  intros G g.
  destruct (init_inv _ _ _ _ Hself) as (_ & _ & _ & _ & Hshape & _).
  rewrite (forward_unfold self (zeros [1; 1; 3]) 1 default_max_len 2 g eq_refl Hshape).
  reflexivity.
Qed.
End PositionalForwardExamples.

(** ** Float arithmetic *)

Lemma Rlt_bool_true x y : (x < y)%R -> Rlt_bool x y = true.
Proof. intros Hxy. unfold Rlt_bool. destruct (Rlt_dec x y); [reflexivity | contradiction]. Qed.

Lemma Rlt_bool_false x y : (y <= x)%R -> Rlt_bool x y = false.
Proof. intros Hxy. unfold Rlt_bool. destruct (Rlt_dec x y); [lra | reflexivity]. Qed.

Section FloatFacts.
Context {dt : dtype}.

(** Every float type reaches beyond 65519. *)
Lemma overflow_threshold_large : (65520 <= overflow_threshold)%R.
Proof. unfold overflow_threshold. destruct dt; rewrite minus_IZR; lra. Qed.

Lemma overflow_threshold_above_1 : (1 < overflow_threshold)%R.
Proof. pose proof overflow_threshold_large. lra. Qed.

Lemma overflow_threshold_above_2 : (2 < overflow_threshold)%R.
Proof. pose proof overflow_threshold_large. lra. Qed.

Lemma fit_finite r : (Rabs r < overflow_threshold)%R -> fit r = Num r.
Proof. intros Hr. unfold fit. rewrite Rlt_bool_true by exact Hr. reflexivity. Qed.

Lemma fit_between r : (0 <= r < overflow_threshold)%R -> fit r = Num r.
Proof. intros Hr. apply fit_finite. rewrite Rabs_pos_eq; lra. Qed.

Lemma fit_overflow r : (overflow_threshold <= r)%R -> fit r = PInf.
Proof.
  intros Hr. pose proof overflow_threshold_above_1 as H1. unfold fit.
  rewrite Rlt_bool_false by (rewrite Rabs_pos_eq; lra).
  rewrite Rlt_bool_true by lra. reflexivity.
Qed.
End FloatFacts.

(** ** Minimum and maximum of a row *)

Section MinMax.

Lemma foldl_fmin_NaN vs : foldl fmin NaN vs = NaN.
Proof. induction vs as [|v vs IH]; [reflexivity|]. cbn. exact IH. Qed.

Lemma foldl_fmax_NaN vs : foldl fmax NaN vs = NaN.
Proof. induction vs as [|v vs IH]; [reflexivity|]. cbn. exact IH. Qed.

Lemma fmin_Num_inv a v m :
  fmin a v = Num m -> (a = Num m \/ v = Num m) /\ at_least m a /\ at_least m v.
Proof.
  destruct a as [x| | |], v as [y| | |]; cbn; intros Heq; try discriminate.
  - injection Heq as Heq. pose proof (Rmin_l x y). pose proof (Rmin_r x y).
    split; [|split; lra].
    unfold Rmin in Heq. destruct (Rle_dec x y); [left | right]; congruence.
  - injection Heq as ->. split; [left; reflexivity | split; [lra | exact I]].
  - injection Heq as ->. split; [right; reflexivity | split; [exact I | lra]].
Qed.

Lemma fmax_Num_inv a v m :
  fmax a v = Num m -> (a = Num m \/ v = Num m) /\ at_most m a /\ at_most m v.
Proof.
  destruct a as [x| | |], v as [y| | |]; cbn; intros Heq; try discriminate.
  - injection Heq as Heq. pose proof (Rmax_l x y). pose proof (Rmax_r x y).
    split; [|split; lra].
    unfold Rmax in Heq. destruct (Rle_dec x y); [right | left]; congruence.
  - injection Heq as ->. split; [left; reflexivity | split; [lra | exact I]].
  - injection Heq as ->. split; [right; reflexivity | split; [exact I | lra]].
Qed.

Lemma at_least_fmin m a v : at_least m (fmin a v) <-> at_least m a /\ at_least m v.
Proof.
  destruct a as [x| | |], v as [y| | |]; cbn; try tauto.
  pose proof (Rmin_l x y). pose proof (Rmin_r x y).
  split; [intros Hm; split; lra | intros [Hx Hy]].
  unfold Rmin. destruct (Rle_dec x y); assumption.
Qed.

Lemma at_most_fmax m a v : at_most m (fmax a v) <-> at_most m a /\ at_most m v.
Proof.
  destruct a as [x| | |], v as [y| | |]; cbn; try tauto.
  pose proof (Rmax_l x y). pose proof (Rmax_r x y).
  split; [intros Hm; split; lra | intros [Hx Hy]].
  unfold Rmax. destruct (Rle_dec x y); assumption.
Qed.

Lemma fmin_least m a v :
  at_least m a -> at_least m v -> a = Num m \/ v = Num m -> fmin a v = Num m.
Proof.
  intros Ha Hv [-> | ->].
  - destruct v as [y| | |]; cbn in Hv |- *; try contradiction; [|reflexivity].
    f_equal. unfold Rmin. destruct (Rle_dec m y); lra.
  - destruct a as [x| | |]; cbn in Ha |- *; try contradiction; [|reflexivity].
    f_equal. unfold Rmin. destruct (Rle_dec x m); lra.
Qed.

Lemma fmax_most m a v :
  at_most m a -> at_most m v -> a = Num m \/ v = Num m -> fmax a v = Num m.
Proof.
  intros Ha Hv [-> | ->].
  - destruct v as [y| | |]; cbn in Hv |- *; try contradiction; [|reflexivity].
    f_equal. unfold Rmax. destruct (Rle_dec m y); lra.
  - destruct a as [x| | |]; cbn in Ha |- *; try contradiction; [|reflexivity].
    f_equal. unfold Rmax. destruct (Rle_dec x m); lra.
Qed.

Lemma foldl_fmin_inv vs : forall a m,
  foldl fmin a vs = Num m ->
  (a = Num m \/ Num m ∈ vs) /\ at_least m a /\ Forall (at_least m) vs.
Proof.
  induction vs as [|v vs IH]; intros a m Hf.
  - cbn in Hf. subst a. split; [left; reflexivity|]. split; [cbn; lra | constructor].
  - cbn in Hf. destruct (IH _ _ Hf) as (Hin & Hle & Hall).
    apply at_least_fmin in Hle as [Ha Hv].
    split; [|split; [exact Ha | constructor; assumption]].
    destruct Hin as [Heq | Hin]; [|right; right; exact Hin].
    destruct (fmin_Num_inv _ _ _ Heq) as ([-> | ->] & _); [left; reflexivity | right; left].
Qed.

Lemma foldl_fmin_intro vs : forall a m,
  at_least m a -> Forall (at_least m) vs -> (a = Num m \/ Num m ∈ vs) ->
  foldl fmin a vs = Num m.
Proof.
  induction vs as [|v vs IH]; intros a m Ha Hall Hin.
  - cbn. destruct Hin as [-> | Hin]; [reflexivity | inversion Hin].
  - inversion Hall as [|? ? Hv Hall']. subst. cbn.
    apply IH; [apply at_least_fmin; split; assumption | exact Hall' |].
    destruct Hin as [-> | Hin].
    + left. apply fmin_least; [exact Ha | exact Hv | left; reflexivity].
    + apply elem_of_cons in Hin as [<- | Hin]; [|right; exact Hin].
      left. apply fmin_least; [exact Ha | exact Hv | right; reflexivity].
Qed.

Lemma foldl_fmax_inv vs : forall a m,
  foldl fmax a vs = Num m ->
  (a = Num m \/ Num m ∈ vs) /\ at_most m a /\ Forall (at_most m) vs.
Proof.
  induction vs as [|v vs IH]; intros a m Hf.
  - cbn in Hf. subst a. split; [left; reflexivity|]. split; [cbn; lra | constructor].
  - cbn in Hf. destruct (IH _ _ Hf) as (Hin & Hle & Hall).
    apply at_most_fmax in Hle as [Ha Hv].
    split; [|split; [exact Ha | constructor; assumption]].
    destruct Hin as [Heq | Hin]; [|right; right; exact Hin].
    destruct (fmax_Num_inv _ _ _ Heq) as ([-> | ->] & _); [left; reflexivity | right; left].
Qed.

Lemma foldl_fmax_intro vs : forall a m,
  at_most m a -> Forall (at_most m) vs -> (a = Num m \/ Num m ∈ vs) ->
  foldl fmax a vs = Num m.
Proof.
  induction vs as [|v vs IH]; intros a m Ha Hall Hin.
  - cbn. destruct Hin as [-> | Hin]; [reflexivity | inversion Hin].
  - inversion Hall as [|? ? Hv Hall']. subst. cbn.
    apply IH; [apply at_most_fmax; split; assumption | exact Hall' |].
    destruct Hin as [-> | Hin].
    + left. apply fmax_most; [exact Ha | exact Hv | left; reflexivity].
    + apply elem_of_cons in Hin as [<- | Hin]; [|right; exact Hin].
      left. apply fmax_most; [exact Ha | exact Hv | right; reflexivity].
Qed.

Lemma np_min_inv vals m :
  np_min vals = Ok (Num m) -> Num m ∈ vals /\ Forall (at_least m) vals.
Proof.
  destruct vals as [|v vs]; [discriminate|]. cbn. intros Heq. apply Ok_inj in Heq.
  destruct (foldl_fmin_inv _ _ _ Heq) as (Hin & Ha & Hall).
  split; [|constructor; assumption].
  destruct Hin as [-> | Hin]; [left | right; exact Hin].
Qed.

Lemma np_max_inv vals m :
  np_max vals = Ok (Num m) -> Num m ∈ vals /\ Forall (at_most m) vals.
Proof.
  destruct vals as [|v vs]; [discriminate|]. cbn. intros Heq. apply Ok_inj in Heq.
  destruct (foldl_fmax_inv _ _ _ Heq) as (Hin & Ha & Hall).
  split; [|constructor; assumption].
  destruct Hin as [-> | Hin]; [left | right; exact Hin].
Qed.

Lemma np_min_intro vals m :
  Num m ∈ vals -> Forall (at_least m) vals -> np_min vals = Ok (Num m).
Proof.
  destruct vals as [|v vs]; [intros Hin; inversion Hin|].
  intros Hin Hall. inversion Hall as [|? ? Hv Hall']. subst.
  cbn. f_equal. apply foldl_fmin_intro; [exact Hv | exact Hall' |].
  apply elem_of_cons in Hin as [Heq | Hin]; [left; congruence | right; exact Hin].
Qed.

Lemma np_max_intro vals m :
  Num m ∈ vals -> Forall (at_most m) vals -> np_max vals = Ok (Num m).
Proof.
  destruct vals as [|v vs]; [intros Hin; inversion Hin|].
  intros Hin Hall. inversion Hall as [|? ? Hv Hall']. subst.
  cbn. f_equal. apply foldl_fmax_intro; [exact Hv | exact Hall' |].
  apply elem_of_cons in Hin as [Heq | Hin]; [left; congruence | right; exact Hin].
Qed.

(** A row between its minimum and its maximum: all its entries are
    finite. *)
Lemma row_between vals mn mx :
  np_min vals = Ok (Num mn) -> np_max vals = Ok (Num mx) ->
  Forall (fun e => exists x, e = Num x /\ (mn <= x <= mx)%R) vals.
Proof.
  intros Hmn Hmx.
  destruct (np_min_inv _ _ Hmn) as [_ Hlo]. destruct (np_max_inv _ _ Hmx) as [_ Hhi].
  rewrite Forall_forall in *. intros e He.
  specialize (Hlo e He). specialize (Hhi e He).
  destruct e as [x| | |]; cbn in Hlo, Hhi; try contradiction.
  exists x. split; [reflexivity | lra].
Qed.

Lemma unit_interval_at_least e : unit_interval e -> at_least 0 e.
Proof. intros (y & -> & Hy). cbn. lra. Qed.

Lemma unit_interval_at_most e : unit_interval e -> at_most 1 e.
Proof. intros (y & -> & Hy). cbn. lra. Qed.
End MinMax.

(** ** [normalize] *)

Section Normalize.
Context {dt : dtype}.

Lemma rescale_bounds mn mx x :
  (mn < mx)%R -> (mn <= x <= mx)%R -> (0 <= (x - mn) / (mx - mn) <= 1)%R.
Proof.
  intros Hlt [Hlo Hhi].
  assert (Hpos : (0 < / (mx - mn))%R) by (apply Rinv_0_lt_compat; lra).
  unfold Rdiv. split.
  - apply Rmult_le_pos; lra.
  - apply Rmult_le_reg_r with (mx - mn)%R; [lra|].
    rewrite Rmult_assoc, Rinv_l by lra. lra.
Qed.

(** Without overflow, the entries of a row are rescaled as the real
    numbers they are. *)
Lemma rescale_Num mn mx x :
  (mn < mx)%R -> (mx - mn < overflow_threshold)%R -> (mn <= x <= mx)%R ->
  rescale mn mx (Num x) = Num ((x - mn) / (mx - mn)).
Proof.
  intros Hlt Hfin Hx. pose proof overflow_threshold_above_1 as H1.
  pose proof (rescale_bounds mn mx x Hlt Hx) as Hq.
  unfold rescale. cbn [fsub].
  rewrite (fit_between (x - mn)), (fit_between (mx - mn)) by lra.
  cbn [fdiv]. rewrite Req_bool_false by lra.
  apply fit_between. lra.
Qed.

Lemma normalized_row_eq vals mn mx :
  np_min vals = Ok mn -> np_max vals = Ok mx ->
  normalized_row vals = Ok ((fun e => fdiv (fsub e mn) (fsub mx mn)) <$> vals).
Proof. intros Hmn Hmx. unfold normalized_row. rewrite Hmn, Hmx. reflexivity. Qed.

Lemma normalized_row_spread vals mn mx :
  np_min vals = Ok (Num mn) -> np_max vals = Ok (Num mx) ->
  (mn < mx)%R -> (mx - mn < overflow_threshold)%R ->
  normalized_row vals = Ok (rescale mn mx <$> vals) /\
  Forall unit_interval (rescale mn mx <$> vals) /\
  np_min (rescale mn mx <$> vals) = Ok (Num 0) /\
  np_max (rescale mn mx <$> vals) = Ok (Num 1) /\
  forall k x, vals !! k = Some (Num x) ->
    (rescale mn mx <$> vals) !! k = Some (Num ((x - mn) / (mx - mn))).
Proof.
  intros Hmn Hmx Hlt Hfin.
  pose proof (row_between _ _ _ Hmn Hmx) as Hb.
  destruct (np_min_inv _ _ Hmn) as [Hmin_in _]. destruct (np_max_inv _ _ Hmx) as [Hmax_in _].
  assert (Hunit : Forall unit_interval (rescale mn mx <$> vals)).
  { apply Forall_fmap. eapply Forall_impl; [exact Hb|].
    intros e (x & -> & Hx). unfold compose. rewrite rescale_Num by assumption.
    eexists. split; [reflexivity|]. apply rescale_bounds; assumption. }
  split; [apply normalized_row_eq; assumption|]. split; [exact Hunit|].
  split; [|split].
  - apply np_min_intro.
    + apply list_elem_of_fmap. exists (Num mn). split; [|exact Hmin_in].
      rewrite rescale_Num by (try assumption; lra).
      f_equal. unfold Rdiv. rewrite Rminus_diag. lra.
    + eapply Forall_impl; [exact Hunit | exact unit_interval_at_least].
  - apply np_max_intro.
    + apply list_elem_of_fmap. exists (Num mx). split; [|exact Hmax_in].
      rewrite rescale_Num by (try assumption; lra).
      f_equal. rewrite Rdiv_diag by lra. reflexivity.
    + eapply Forall_impl; [exact Hunit | exact unit_interval_at_most].
  - intros k x Hk. rewrite list_lookup_fmap, Hk.
    change (Some (rescale mn mx (Num x)) = Some (Num ((x - mn) / (mx - mn)))).
    rewrite Forall_forall in Hb.
    destruct (Hb (Num x)) as (x' & Hx' & Hx); [eapply list_elem_of_lookup_2; exact Hk|].
    injection Hx' as <-. rewrite rescale_Num by assumption. reflexivity.
Qed.

(** Rescaling a row that already has minimum 0 and maximum 1 changes nothing. *)
Lemma normalized_row_fixed vals :
  Forall unit_interval vals -> np_min vals = Ok (Num 0) -> np_max vals = Ok (Num 1) ->
  normalized_row vals = Ok vals.
Proof.
  intros Hunit Hmn Hmx. pose proof overflow_threshold_above_1 as H1.
  rewrite (normalized_row_eq _ _ _ Hmn Hmx). f_equal.
  rewrite <- (list_fmap_id vals) at 2. apply list_fmap_ext.
  intros k e Hk. rewrite Forall_forall in Hunit.
  destruct (Hunit e) as (y & -> & Hy); [eapply list_elem_of_lookup_2; exact Hk|].
  change (rescale 0 1 (Num y) = Num y). rewrite rescale_Num by lra.
  f_equal. rewrite Rminus_0_r, Rminus_0_r, Rdiv_1_r. reflexivity.
Qed.

Lemma normalized_spread a :
  Forall spread a ->
  exists b, normalized a = Ok b /\ normalized b = Ok b /\ length b = length a.
Proof.
  induction a as [|vals a IH]; intros Hall.
  - exists []. repeat split.
  - inversion Hall as [|? ? (mn & mx & Hmn & Hmx & Hlt & Hfin) Hall']. subst.
    destruct (IH Hall') as (b & Hb & Hbb & Hlen).
    destruct (normalized_row_spread vals mn mx Hmn Hmx Hlt Hfin)
      as (Hrow & Hunit & H0 & H1 & _).
    exists ((rescale mn mx <$> vals) :: b). cbn [normalized].
    rewrite Hrow, Hb. split; [reflexivity|].
    rewrite (normalized_row_fixed _ Hunit H0 H1), Hbb. split; [reflexivity|].
    cbn. rewrite Hlen. reflexivity.
Qed.

Lemma normalized_nonempty a :
  Forall (fun vals => vals <> []) a -> exists b, normalized a = Ok b.
Proof.
  induction a as [|vals a IH]; intros Hall; [exists []; reflexivity|].
  inversion Hall as [|? ? Hne Hall']. subst. destruct (IH Hall') as [b Hb].
  destruct vals as [|v vs]; [contradiction|].
  eexists. cbn [normalized]. rewrite Hb. unfold normalized_row. cbn [np_min np_max]. reflexivity.
Qed.

Lemma normalized_lookup a b r vals :
  normalized a = Ok b -> a !! r = Some vals ->
  exists orow, normalized_row vals = Ok orow /\ b !! r = Some orow.
Proof.
  revert b r. induction a as [|v a IH]; intros b r Hn Hr; [discriminate|].
  cbn [normalized] in Hn.
  destruct (normalized_row v) as [o|] eqn:Ho; [|discriminate].
  destruct (normalized a) as [rs|] eqn:Hrs; [|discriminate].
  apply Ok_inj in Hn. subst b.
  destruct r as [|r]; cbn in Hr.
  - injection Hr as ->. exists o. split; [exact Ho | reflexivity].
  - destruct (IH rs r eq_refl Hr) as (orow & H1 & H2). exists orow. split; assumption.
Qed.

Lemma normalize_row_step (h : store) arr out (a o : ndarray) k vals old r :
  arr <> out -> h !! arr = Some a -> a !! k = Some vals ->
  o !! k = Some old -> length old = length vals ->
  normalized_row vals = Ok r ->
  normalize_row arr out k (<[out := o]> h) = (Ok tt, <[out := <[k := r]> o]> h).
Proof.
  intros Hne Harr Hk Hold Hlen Hr.
  unfold normalized_row in Hr.
  destruct (np_min vals) as [mn|] eqn:Hmn; [|discriminate].
  destruct (np_max vals) as [mx|] eqn:Hmx; [|discriminate].
  apply Ok_inj in Hr. subst r.
  assert (Hlt : k < length a) by (eapply lookup_lt_Some; exact Hk).
  assert (Hview : get_view arr k (<[out := o]> h) = (Ok (mkView arr k), <[out := o]> h)).
  { unfold get_view. rewrite lookup_insert_ne by congruence. rewrite Harr.
    destruct (Nat.ltb_spec k (length a)); [reflexivity | lia]. }
  assert (Hread : read_view (mkView arr k) (<[out := o]> h) = (Ok vals, <[out := o]> h)).
  { unfold read_view. cbn [base row]. rewrite lookup_insert_ne by congruence.
    rewrite Harr, Hk. reflexivity. }
  unfold normalize_row, bind, lift_result.
  rewrite Hview, Hread, Hread, Hmn, Hread, Hmx, Hread, Hmn.
  unfold set_row.
  rewrite lookup_insert_eq, Hold, length_fmap, Hlen, Nat.eqb_refl.
  rewrite insert_insert_eq. reflexivity.
Qed.

Lemma normalize_loop_steps (h : store) arr out : forall rest done pre rs (a : ndarray),
  a = done ++ rest -> length pre = length done ->
  arr <> out -> h !! arr = Some a -> normalized rest = Ok rs ->
  normalize_loop arr out (seq (length done) (length rest))
    (<[out := pre ++ zero_rows rest]> h) = (Ok tt, <[out := pre ++ rs]> h).
Proof.
  induction rest as [|vals rest IH]; intros done pre rs a Ha Hlen Hne Harr Hrs.
  - cbn in Hrs. apply Ok_inj in Hrs. subst rs. reflexivity.
  - cbn [normalized] in Hrs.
    destruct (normalized_row vals) as [r|] eqn:Hr; [|discriminate].
    destruct (normalized rest) as [rs'|] eqn:Hrs'; [|discriminate].
    apply Ok_inj in Hrs. subst rs.
    cbn [length seq normalize_loop]. unfold bind at 1.
    rewrite (normalize_row_step h arr out a _ (length done) vals ((fun _ => Num 0) <$> vals) r);
      [ | exact Hne | exact Harr | subst a; apply list_lookup_middle; reflexivity
        | cbn [zero_rows fmap list_fmap]; apply list_lookup_middle; symmetry; exact Hlen
        | apply length_fmap | exact Hr ].
    cbn [zero_rows fmap list_fmap].
    rewrite insert_app_r_alt by lia. rewrite Hlen, Nat.sub_diag. cbn [insert list_insert].
    change (list_fmap _ _ (fun vals0 => list_fmap _ _ (fun _ => Num 0) vals0) rest)
      with (zero_rows rest).
    rewrite (cons_middle r pre), (cons_middle r pre rs'), !app_assoc.
    replace (S (length done)) with (length (done ++ [vals])) by (rewrite length_app; cbn; lia).
    apply (IH (done ++ [vals]) (pre ++ [r]) rs' a).
    + rewrite <- app_assoc. exact Ha.
    + rewrite !length_app, Hlen. reflexivity.
    + exact Hne.
    + exact Harr.
    + reflexivity.
Qed.

(** [normalize] computes [normalized] into a new array. *)
Lemma normalize_normalized (h : store) arr (a b : ndarray) :
  h !! arr = Some a -> normalized a = Ok b ->
  normalize arr h = (Ok (fresh (dom h)), <[fresh (dom h) := b]> h).
Proof.
  intros Harr Hb. unfold normalize, bind at 1, zeros_like. rewrite Harr.
  set (out := fresh (dom h)).
  assert (Hne : arr <> out).
  { intros ->. apply (is_fresh (dom h)). apply elem_of_dom. eauto. }
  unfold bind at 1, shape0. rewrite lookup_insert_ne by congruence. rewrite Harr.
  unfold bind at 1.
  pose proof (normalize_loop_steps h arr out a [] [] b a eq_refl eq_refl Hne Harr Hb) as Hloop.
  cbn [length app] in Hloop. unfold zero_rows in Hloop. rewrite Hloop.
  reflexivity.
Qed.

Lemma same_except_refl out (h : store) : same_except out h h.
Proof. intros p _. reflexivity. Qed.

Lemma same_except_trans out (h1 h2 h3 : store) :
  same_except out h1 h2 -> same_except out h2 h3 -> same_except out h1 h3.
Proof. intros H12 H23 p Hp. rewrite (H23 p Hp). apply H12. exact Hp. Qed.

Lemma get_view_state arr k (h : store) : (get_view arr k h).2 = h.
Proof.
  unfold get_view. destruct (h !! arr); [|reflexivity].
  destruct (k <? length _); reflexivity.
Qed.

Lemma read_view_state v (h : store) : (read_view v h).2 = h.
Proof.
  unfold read_view. destruct (h !! base v) as [a|]; [|reflexivity].
  destruct (a !! row v); reflexivity.
Qed.

Lemma set_row_same_except out k vals (h : store) :
  same_except out h (set_row out k vals h).2.
Proof.
  unfold set_row. destruct (h !! out) as [o|]; [|apply same_except_refl].
  destruct (o !! k) as [old|]; [|apply same_except_refl].
  destruct (_ =? _); [|apply same_except_refl].
  intros p Hp. cbn. rewrite lookup_insert_ne by congruence. reflexivity.
Qed.

(** Sequencing keeps a relation between the first and the last store that
    each step keeps. *)
Lemma bind_state {A B} (P : store -> store -> Prop) (c : M store A) (k : A -> M store B) h :
  (forall h1 h2 h3, P h1 h2 -> P h2 h3 -> P h1 h3) ->
  P h (c h).2 -> (forall a h', P h' (k a h').2) -> P h (bind c k h).2.
Proof.
  intros Htrans Hc Hk. unfold bind. destruct (c h) as [[a|e] h'] eqn:E; cbn in Hc.
  - eapply Htrans; [exact Hc | apply Hk].
  - exact Hc.
Qed.

Lemma normalize_row_same_except arr out k (h : store) :
  same_except out h (normalize_row arr out k h).2.
Proof.
  unfold normalize_row.
  repeat (apply bind_state; [apply same_except_trans | | intros ? ?]);
    try (rewrite ?get_view_state, ?read_view_state; apply same_except_refl);
    try (unfold lift_result; apply same_except_refl).
  apply set_row_same_except.
Qed.

Lemma normalize_loop_same_except arr out rownos : forall h : store,
  same_except out h (normalize_loop arr out rownos h).2.
Proof.
  induction rownos as [|k rest IH]; intros h; [apply same_except_refl|].
  cbn [normalize_loop]. apply bind_state; [apply same_except_trans | | intros ? ?].
  - apply normalize_row_same_except.
  - apply IH.
Qed.

Lemma normalize_frame (h : store) arr p :
  p ∈ dom h -> (normalize arr h).2 !! p = h !! p.
Proof.
  intros Hp. unfold normalize, bind at 1, zeros_like.
  destruct (h !! arr) as [a|] eqn:Harr; [|reflexivity].
  set (out := fresh (dom h)).
  assert (Hne : p <> out) by (intros ->; exact (is_fresh (dom h) Hp)).
  transitivity ((<[out := (fun vals : list npfloat => (fun _ => Num 0) <$> vals) <$> a]> h) !! p);
    [|apply lookup_insert_ne; congruence].
  generalize (<[out := (fun vals : list npfloat => (fun _ => Num 0) <$> vals) <$> a]> h).
  intros h0.
  assert (Hsame : same_except out h0
            (bind (shape0 arr) (fun n => bind (normalize_loop arr out (seq 0 n))
                                           (fun _ => ret out)) h0).2).
  { apply bind_state; [apply same_except_trans | | intros n h1].
    - unfold shape0. destruct (h0 !! arr); apply same_except_refl.
    - apply bind_state; [apply same_except_trans | | intros ? ?].
      + apply normalize_loop_same_except.
      + apply same_except_refl. }
  apply Hsame. exact Hne.
Qed.

Lemma matrix_rows_nonempty n c (a : ndarray) :
  is_matrix n c a -> 1 <= c -> Forall (fun vals => vals <> []) a.
Proof.
  intros [_ Hall] Hc. eapply Forall_impl; [exact Hall|].
  intros vals Hlen ->. cbn in Hlen. lia.
Qed.


(** C5, amended. On a float matrix, [normalize] rescales each row by
    its own minimum and maximum: in a row of finite numbers whose
    maximum exceeds its minimum and whose range [max - min] does not
    overflow, every entry [x] becomes [(x - min) / (max - min)]; the
    entries of the new row lie in [0, 1], its minimum is 0 and its
    maximum is 1. *)
Theorem normalize_rescales_rows (h : store) arr (a : ndarray) n c r vals mn mx :
  h !! arr = Some a -> is_matrix n c a -> a !! r = Some vals ->
  np_min vals = Ok (Num mn) -> np_max vals = Ok (Num mx) -> (mn < mx)%R ->
  (mx - mn < overflow_threshold)%R ->
  exists b orow,
    normalize arr h = (Ok (fresh (dom h)), <[fresh (dom h) := b]> h) /\
    b !! r = Some orow /\
    orow = (fun e => fdiv (fsub e (Num mn)) (fsub (Num mx) (Num mn))) <$> vals /\
    Forall (fun e => exists x, e = Num x /\ (mn <= x <= mx)%R) vals /\
    (forall k x, vals !! k = Some (Num x) ->
       orow !! k = Some (Num ((x - mn) / (mx - mn)))) /\
    Forall unit_interval orow /\
    np_min orow = Ok (Num 0) /\ np_max orow = Ok (Num 1).
Proof.
  intros Harr Hmat Hr Hmn Hmx Hlt Hfin.
  assert (Hc : 1 <= c).
  { destruct Hmat as [_ Hall]. rewrite Forall_forall in Hall.
    assert (Hin : vals ∈ a) by (apply list_elem_of_lookup; exists r; exact Hr).
    rewrite <- (Hall vals Hin).
    destruct vals; [discriminate | cbn; lia]. }
  destruct (normalized_nonempty a (matrix_rows_nonempty n c a Hmat Hc)) as [b Hb].
  destruct (normalized_lookup a b r vals Hb Hr) as (orow & Horow & Hbr).
  destruct (normalized_row_spread vals mn mx Hmn Hmx Hlt Hfin)
    as (Hrow & Hunit & H0 & H1 & Hk).
  rewrite Hrow in Horow. apply Ok_inj in Horow. subst orow.
  exists b, (rescale mn mx <$> vals).
  split; [exact (normalize_normalized h arr a b Harr Hb)|].
  split; [exact Hbr|]. split; [reflexivity|].
  split; [apply row_between; assumption|].
  split; [exact Hk|]. split; [exact Hunit|]. split; assumption.
Qed.

(** C9, amended. On a float matrix in which every row is of finite
    numbers with a maximum above its minimum and a range that does not
    overflow, normalizing the result of [normalize] gives the same matrix
    again. *)
Theorem normalize_idempotent (h : store) arr (a : ndarray) :
  h !! arr = Some a -> Forall spread a ->
  exists out1 h1 out2 h2 b,
    normalize arr h = (Ok out1, h1) /\ h1 !! out1 = Some b /\
    normalize out1 h1 = (Ok out2, h2) /\ h2 !! out2 = Some b.
Proof.
  intros Harr Hall.
  destruct (normalized_spread a Hall) as (b & Hb & Hbb & _).
  pose proof (normalize_normalized h arr a b Harr Hb) as Hrun1.
  set (out1 := fresh (dom h)) in *. set (h1 := <[out1 := b]> h) in *.
  assert (Hout1 : h1 !! out1 = Some b) by apply lookup_insert_eq.
  pose proof (normalize_normalized h1 out1 b b Hout1 Hbb) as Hrun2.
  exists out1, h1, (fresh (dom h1)), (<[fresh (dom h1) := b]> h1), b.
  split; [exact Hrun1|]. split; [exact Hout1|]. split; [exact Hrun2|].
  apply lookup_insert_eq.
Qed.

(** C10. [normalize] leaves its argument as it was: after the call, the
    store holds the same array at [arr], and at every address it held
    before; the only array written is the new one. *)
Theorem normalize_keeps_argument (h : store) arr (a : ndarray) :
  h !! arr = Some a ->
  (normalize arr h).2 !! arr = Some a /\
  (forall p, p ∈ dom h -> (normalize arr h).2 !! p = h !! p) /\
  fresh (dom h) ∉ dom h.
Proof.
  intros Harr. split; [|split].
  - rewrite normalize_frame; [exact Harr|]. apply elem_of_dom. eauto.
  - intros p Hp. apply normalize_frame. exact Hp.
  - apply is_fresh.
Qed.

End Normalize.

(** ** No error cases of the notebook's own *)

Section NoErrors.
Context {dt : dtype}.
Import PositionalEncoding.

(** C6, amended. [normalize] returns on every matrix with at least one
    row and one column, and [PositionalEncoding.forward] returns on
    every tensor of shape (B, T, d_model) with T <= max_len. *)
Theorem glue_code_returns :
  (forall (h : store) arr (a : ndarray) n c,
      h !! arr = Some a -> is_matrix n c a -> 1 <= n -> 1 <= c ->
      exists b, normalize arr h = (Ok (fresh (dom h)), <[fresh (dom h) := b]> h)) /\
  (forall (G : Generator) d_model p max_len self0 mode B T (x : tensor R) (g : Rng),
      __init__ d_model p max_len = Ok self0 ->
      shape x = [B; T; d_model] -> T <= max_len ->
      exists y g', forward (train mode self0) x g = (Ok y, g')).
Proof.
  split.
  - intros h arr a n c Harr Hmat _ Hc.
    destruct (normalized_nonempty a (matrix_rows_nonempty n c a Hmat Hc)) as [b Hb].
    exists b. exact (normalize_normalized h arr a b Harr Hb).
  - intros G d_model p max_len self0 mode B T x g Hinit Hx HT.
    destruct (init_inv _ _ _ _ Hinit) as (_ & Hp & _).
    destruct (forward_on_embeddings d_model p max_len self0 mode B T x g Hinit Hx HT)
      as (sum & _ & Hfw).
    destruct (F_dropout_ok sum p mode g Hp) as (y & g' & Hy).
    exists y, g'. rewrite Hfw. exact Hy.
Qed.
End NoErrors.

(** ** [normalize] on the example stores *)

Section NormalizeExamples.
Import PositionalEncoding.

Lemma min_1_3 : np_min [Num 1; Num 3] = Ok (Num 1).
Proof. cbn. do 2 f_equal. unfold Rmin. destruct (Rle_dec 1 3); lra. Qed.

Lemma max_1_3 : np_max [Num 1; Num 3] = Ok (Num 3).
Proof. cbn. do 2 f_equal. unfold Rmax. destruct (Rle_dec 1 3); lra. Qed.

Lemma matrix_1_2 (x y : npfloat) : is_matrix 1 2 [[x; y]].
Proof. split; [reflexivity|]. constructor; [reflexivity | constructor]. Qed.

Lemma spread_1_3 {dt : dtype} : spread [Num 1; Num 3].
Proof.
  pose proof (overflow_threshold_above_2 (dt := dt)) as H2.
  exists 1%R, 3%R. split; [exact min_1_3|]. split; [exact max_1_3|]. lra.
Qed.

Lemma normalize_rescales_rows_witness :
  exists (b : ndarray) (orow : list npfloat),
    normalize (dt := float32) 0 one_row_store
      = (Ok (fresh (dom one_row_store)), <[fresh (dom one_row_store) := b]> one_row_store) /\
    b !! 0 = Some orow /\
    orow !! 1 = Some (Num ((3 - 1) / (3 - 1))).
Proof.
  pose proof (overflow_threshold_above_2 (dt := float32)) as H2.
  destruct (normalize_rescales_rows (dt := float32) one_row_store 0 [[Num 1; Num 3]] 1 2 0
              [Num 1; Num 3] 1 3
              (lookup_singleton_eq 0 [[Num 1; Num 3]]) (matrix_1_2 _ _)
              eq_refl min_1_3 max_1_3 ltac:(lra) ltac:(lra))
    as (b & orow & Hrun & Hb & _ & _ & Hk & _).
  exists b, orow. split; [exact Hrun|]. split; [exact Hb|].
  apply (Hk 1 3%R). reflexivity.
Defined.

Lemma normalize_idempotent_witness :
  exists out1 h1 out2 h2 b,
    normalize (dt := float32) 0 one_row_store = (Ok out1, h1) /\ h1 !! out1 = Some b /\
    normalize (dt := float32) out1 h1 = (Ok out2, h2) /\ h2 !! out2 = Some b.
Proof.
  apply (normalize_idempotent (dt := float32) one_row_store 0 [[Num 1; Num 3]]).
  - apply lookup_singleton_eq.
  - constructor; [apply spread_1_3 | constructor].
Defined.

Lemma normalize_keeps_argument_witness :
  (normalize (dt := float32) 0 one_row_store).2 !! 0 = Some [[Num 1; Num 3]].
Proof.
  destruct (normalize_keeps_argument (dt := float32) one_row_store 0 [[Num 1; Num 3]]
              (lookup_singleton_eq 0 [[Num 1; Num 3]])) as [Hkept _].
  exact Hkept.
Defined.

Lemma glue_code_returns_witness :
  (exists out h', normalize (dt := float32) 0 constant_row_store = (Ok out, h')) /\
  (exists self0, __init__ 4 0 3 = Ok self0 /\
     exists y g', @forward keep_all (train true self0) (zeros [2; 3; 4]) 0 = (Ok y, g')).
Proof.
  destruct (glue_code_returns (dt := float32)) as [Hnorm Hfwd]. split.
  - destruct (Hnorm constant_row_store 0 [[Num 1; Num 1]] 1 2) as [b Hb].
    + apply lookup_singleton_eq.
    + apply matrix_1_2.
    + lia.
    + lia.
    + eexists _, _. exact Hb.
  - destruct (init_total 4 0 3 ltac:(lia) eq_refl ltac:(lra)) as [self0 Hself].
    exists self0. split; [exact Hself|].
    apply (Hfwd keep_all 4 0%R 3 self0 true 2 3 (zeros [2; 3; 4]) 0 Hself eq_refl).
    lia.
Defined.

(** The row [-1e308, 0, 1e308] of a float64 array: its range overflows. *)
Lemma min_overflow_row : np_min overflow_row = Ok (Num (-1e308)).
Proof.
  unfold overflow_row. apply np_min_intro; [left|].
  repeat (apply Forall_cons_2; [unfold at_least, at_most; lra|]). apply Forall_nil_2.
Qed.

Lemma max_overflow_row : np_max overflow_row = Ok (Num 1e308).
Proof.
  unfold overflow_row. apply np_max_intro; [right; right; left|].
  repeat (apply Forall_cons_2; [unfold at_least, at_most; lra|]). apply Forall_nil_2.
Qed.

Lemma matrix_overflow_row : is_matrix 1 3 [overflow_row].
Proof. split; [reflexivity|]. constructor; [reflexivity | constructor]. Qed.

Lemma float64_threshold :
  (1e308 < overflow_threshold (dt := float64) < 1e308 - - 1e308)%R.
Proof. unfold overflow_threshold. rewrite minus_IZR. lra. Qed.

Lemma normalized_overflow_row :
  normalized_row (dt := float64) overflow_row = Ok [Num 0; Num 0; NaN].
Proof.
  pose proof float64_threshold as Ht.
  rewrite (normalized_row_eq _ _ _ min_overflow_row max_overflow_row).
  unfold overflow_row. cbn [fmap list_fmap fsub].
  rewrite (fit_overflow (1e308 - - 1e308)) by lra.
  rewrite (fit_between (- 1e308 - - 1e308)), (fit_between (0 - - 1e308)) by lra.
  reflexivity.
Qed.

Lemma normalized_nan_row :
  normalized_row (dt := float64) [Num 0; Num 0; NaN] = Ok [NaN; NaN; NaN].
Proof. reflexivity. Qed.

Lemma normalize_overflow_store :
  normalize (dt := float64) 0 overflow_store
    = (Ok (fresh (dom overflow_store)),
       <[fresh (dom overflow_store) := [[Num 0; Num 0; NaN]]]> overflow_store).
Proof.
  apply (normalize_normalized (dt := float64) overflow_store 0 [overflow_row]).
  - apply lookup_singleton_eq.
  - cbn [normalized]. rewrite normalized_overflow_row. reflexivity.
Qed.

(** C5 as stated fails: the maximum 1e308 of the float64 row
    [-1e308, 0, 1e308] exceeds its minimum, but [max - min] overflows to
    infinity; the row comes out as [0, 0, nan], with an entry outside
    [0, 1] and no maximum 1. *)
Lemma normalize_overflow_counterexample :
  np_min overflow_row = Ok (Num (-1e308)) /\
  np_max overflow_row = Ok (Num 1e308) /\
  (-1e308 < 1e308)%R /\
  normalize (dt := float64) 0 overflow_store
    = (Ok (fresh (dom overflow_store)),
       <[fresh (dom overflow_store) := [[Num 0; Num 0; NaN]]]> overflow_store) /\
  ~ Forall unit_interval [Num 0; Num 0; NaN] /\
  np_max [Num 0; Num 0; NaN] <> Ok (Num 1).
Proof.
  split; [exact min_overflow_row|]. split; [exact max_overflow_row|].
  split; [lra|]. split; [exact normalize_overflow_store|]. split.
  - intros Hall. rewrite Forall_forall in Hall.
    destruct (Hall NaN) as (y & Hy & _); [right; right; left | discriminate].
  - discriminate.
Qed.

(** C9 as stated fails on the same row: [normalize] returns
    [0, 0, nan] for it, and [nan, nan, nan] for that. *)
Lemma normalize_twice_counterexample :
  np_min overflow_row = Ok (Num (-1e308)) /\
  np_max overflow_row = Ok (Num 1e308) /\
  (-1e308 < 1e308)%R /\
  exists out1 h1 out2 h2,
    normalize (dt := float64) 0 overflow_store = (Ok out1, h1) /\
    h1 !! out1 = Some [[Num 0; Num 0; NaN]] /\
    normalize (dt := float64) out1 h1 = (Ok out2, h2) /\
    h2 !! out2 = Some [[NaN; NaN; NaN]].
Proof.
  split; [exact min_overflow_row|]. split; [exact max_overflow_row|]. split; [lra|].
  set (out1 := fresh (dom overflow_store)).
  set (h1 := <[out1 := [[Num 0; Num 0; NaN]]]> overflow_store).
  assert (Hout1 : h1 !! out1 = Some [[Num 0; Num 0; NaN]]) by apply lookup_insert_eq.
  exists out1, h1, (fresh (dom h1)), (<[fresh (dom h1) := [[NaN; NaN; NaN]]]> h1).
  split; [exact normalize_overflow_store|]. split; [exact Hout1|]. split.
  - apply (normalize_normalized (dt := float64) h1 out1 [[Num 0; Num 0; NaN]]);
      [exact Hout1 | reflexivity].
  - apply lookup_insert_eq.
Qed.
End NormalizeExamples.

(** ** The state-and-exception monad *)

Section MonadFacts.
Context {S : Type}.

Lemma bind_ok_inv {A B} (c : M S A) (k : A -> M S B) s b s' :
  bind c k s = (Ok b, s') -> exists a s1, c s = (Ok a, s1) /\ k a s1 = (Ok b, s').
Proof.
  unfold bind. destruct (c s) as [[a|e] s1]; [eauto | discriminate].
Qed.

Lemma ret_inv {A} (a b : A) (s s' : S) : ret a s = (Ok b, s') -> a = b /\ s = s'.
Proof. unfold ret. intros Heq. split; congruence. Qed.

Lemma lift_result_inv {A} (r : result A) (b : A) (s s' : S) :
  lift_result r s = (Ok b, s') -> r = Ok b /\ s = s'.
Proof. unfold lift_result. intros Heq. split; congruence. Qed.
End MonadFacts.

(** ** TransformerEncoder *)

Section EncoderFacts.
Context `{Framework}.
Import TransformerEncoder.

Lemma on_gen_inv {A} (c : M Rng A) st a st' :
  on_gen c st = (Ok a, st') ->
  calls st' = calls st /\ c (gen st) = (Ok a, gen st').
Proof.
  unfold on_gen. destruct (c (gen st)) as [r g] eqn:E. intros Heq.
  injection Heq as -> <-. split; reflexivity.
Qed.

Lemma log_inv ev st u st' :
  log ev st = (Ok u, st') -> calls st' = calls st ++ [ev] /\ gen st' = gen st.
Proof. unfold log. intros Heq. injection Heq as _ <-. split; reflexivity. Qed.

Lemma new_layers_inv args n : forall st ls st',
  new_layers args n st = (Ok ls, st') ->
  length ls = n /\ calls st' = calls st ++ (EvNewLayer <$> ls).
Proof.
  induction n as [|n IH]; intros st ls st' Hrun.
  - apply ret_inv in Hrun as [<- <-]. split; [reflexivity|]. cbn. rewrite app_nil_r. reflexivity.
  - cbn [new_layers] in Hrun.
    apply bind_ok_inv in Hrun as (l & s1 & Hl & Hrun).
    apply bind_ok_inv in Hrun as (u & s2 & Hlog & Hrun).
    apply bind_ok_inv in Hrun as (ls' & s3 & Hls & Hrun).
    apply ret_inv in Hrun as [<- <-].
    apply on_gen_inv in Hl as [Hc1 _]. apply log_inv in Hlog as [Hc2 _].
    destruct (IH _ _ _ Hls) as [Hlen Hc3].
    split; [cbn; rewrite Hlen; reflexivity|].
    rewrite Hc3, Hc2, Hc1. cbn. rewrite <- app_assoc. reflexivity.
Qed.

(** What a successful [__init__] has set. *)
Lemma encoder_init_inv args emb left_pad st0 enc st1 :
  __init__ args emb left_pad st0 = (Ok enc, st1) ->
  embed_tokens enc = emb /\
  embed_scale enc = sqrt (INR (embedding_dim emb)) /\
  padding_idx enc = emb_padding_idx emb /\
  dropout enc = args_dropout args /\
  self_fuse_dropout_add enc = fuse_dropout_add args /\
  normalize enc = encoder_normalize_before args /\
  (normalize enc = true -> exists ln, layer_norm enc = Some ln) /\
  (embed_positions enc = None <-> no_token_positional_embeddings args = true) /\
  length (layers enc) = encoder_layers args /\
  calls st1 = calls st0 ++ (EvNewLayer <$> layers enc).
Proof.
  unfold __init__. intros Hrun.
  apply bind_ok_inv in Hrun as (pos & s1 & Hpos & Hrun).
  apply bind_ok_inv in Hrun as (ls & s2 & Hls & Hrun).
  apply bind_ok_inv in Hrun as (ln & s3 & Hln & Hrun).
  apply ret_inv in Hrun as [<- <-]. cbn [embed_tokens embed_scale padding_idx dropout
    self_fuse_dropout_add normalize layer_norm embed_positions layers].
  destruct (new_layers_inv _ _ _ _ _ Hls) as [Hlen Hcalls].
  assert (Hc1 : calls s1 = calls st0 /\
                (pos = None <-> no_token_positional_embeddings args = true)).
  { destruct (no_token_positional_embeddings args); cbn [negb] in Hpos.
    - apply ret_inv in Hpos as [<- <-]. split; [reflexivity | split; reflexivity].
    - apply bind_ok_inv in Hpos as (P & s & HP & Hret).
      apply ret_inv in Hret as [<- <-]. apply on_gen_inv in HP as [HP _].
      split; [exact HP | split; discriminate]. }
  destruct Hc1 as [Hc1 Hnone].
  assert (Hc3 : calls s3 = calls s2 /\
                (encoder_normalize_before args = true -> exists n, ln = Some n)).
  { destruct (encoder_normalize_before args).
    - apply bind_ok_inv in Hln as (n & s & Hn & Hret).
      apply ret_inv in Hret as [<- <-]. apply on_gen_inv in Hn as [Hn _].
      split; [exact Hn | eauto].
    - apply ret_inv in Hln as [<- <-]. split; [reflexivity | discriminate]. }
  destruct Hc3 as [Hc3 Hsome].
  repeat (split; [reflexivity|]). split; [exact Hsome|]. split; [exact Hnone|].
  split; [exact Hlen|]. rewrite Hc3, Hcalls, Hc1. reflexivity.
Qed.



Lemma run_layers_inv mask : forall ls x st z st',
  run_layers ls mask x st = (Ok z, st') ->
  exists evs,
    layer_calls mask ls (gen st) x evs (gen st') z /\ calls st' = calls st ++ evs.
Proof.
  induction ls as [|l ls IH]; intros x st z st' Hrun.
  - apply ret_inv in Hrun as [<- <-]. exists []. split; [constructor|].
    rewrite app_nil_r. reflexivity.
  - cbn [run_layers] in Hrun.
    apply bind_ok_inv in Hrun as (y & s1 & Hl & Hrun).
    apply bind_ok_inv in Hrun as (u & s2 & Hlog & Hrun).
    apply on_gen_inv in Hl as [Hc1 Hcall]. apply log_inv in Hlog as [Hc2 Hg2].
    destruct (IH _ _ _ _ Hrun) as (evs & Hevs & Hc3). rewrite Hg2 in Hevs.
    exists (EvLayer l x mask y :: evs). split.
    + econstructor; [exact Hcall | exact Hevs].
    + rewrite Hc3, Hc2, Hc1, <- app_assoc. reflexivity.
Qed.
End EncoderFacts.

Lemma elem_of_indices s : forall idx, idx ∈ indices s <-> in_shape idx s.
Proof.
  unfold in_shape. induction s as [|d s IH]; intros idx.
  - cbn [indices]. rewrite list_elem_of_singleton. split.
    + intros ->. constructor.
    + intros Hf. inversion Hf. reflexivity.
  - cbn [indices]. rewrite list_elem_of_bind. split.
    + intros (i & Hidx & Hi). apply list_elem_of_fmap in Hidx as (tl & -> & Htl).
      apply elem_of_seq in Hi. constructor; [lia | apply IH; exact Htl].
    + intros Hf. inversion Hf as [|i ? tl ? Hi Htl]. subst.
      exists i. split.
      * apply list_elem_of_fmap. exists tl. split; [reflexivity | apply IH; exact Htl].
      * apply elem_of_seq. lia.
Qed.

Section EncoderForward.
Context `{Framework}.
Import TransformerEncoder.

Lemma any_true mask :
  any mask = true <-> exists idx, in_shape idx (shape mask) /\ item mask idx = true.
Proof.
  unfold any. rewrite existsb_exists. split.
  - intros (idx & Hin & Hit). exists idx. split; [|exact Hit].
    apply elem_of_indices, list_elem_of_In. exact Hin.
  - intros (idx & Hin & Hit). exists idx. split; [|exact Hit].
    apply list_elem_of_In, elem_of_indices. exact Hin.
Qed.

Lemma layer_calls_events mask ls g x evs g' z :
  layer_calls mask ls g x evs g' z ->
  forall ev, ev ∈ evs -> exists l x' y, ev = EvLayer l x' mask y.
Proof.
  induction 1 as [|l ls g x g1 y evs g' z _ _ IH]; intros ev Hev.
  - inversion Hev.
  - apply elem_of_cons in Hev as [-> | Hev]; [eauto | apply IH; exact Hev].
Qed.


(** A run of [forward] that returns, stage by stage. *)
Lemma forward_inv self src len st x m st' :
  forward self src len st = (Ok (x, m), st') ->
  exists p e x1 x2 g1 xt xl pevs levs nevs,
    padding_idx self = Some p /\
    embed (embed_tokens self) src = Ok e /\
    match embed_positions self with
    | Some P => exists pos, positions P src = Ok pos /\
                  tensor_iop Rplus (tensor_map (Rmult (embed_scale self)) e) pos = Ok x1 /\
                  pevs = [EvEmbedPositions src pos]
    | None => x1 = tensor_map (Rmult (embed_scale self)) e /\ pevs = []
    end /\
    F_dropout x1 (dropout self) (training self) (gen st) = (Ok x2, g1) /\
    transpose01 x2 = Ok xt /\
    layer_calls (layers_mask p src) (layers self) g1 xt levs (gen st') xl /\
    (if normalize self
     then exists ln, layer_norm self = Some ln /\ norm ln xl = Ok x /\
                     nevs = [EvLayerNorm xl x]
     else x = xl /\ nevs = []) /\
    m = Some (padding_mask p src) /\
    calls st' = calls st ++ [EvEmbedTokens src e] ++ pevs
                  ++ [EvDropout x1 (dropout self) (training self) x2] ++ levs ++ nevs.
Proof.
  unfold forward. intros Hrun.
  apply bind_ok_inv in Hrun as (e & s1 & He & Hrun).
  apply lift_result_inv in He as [He <-].
  apply bind_ok_inv in Hrun as (u1 & s2 & Hlog1 & Hrun). apply log_inv in Hlog1 as [Hc1 Hg1].
  apply bind_ok_inv in Hrun as (x1 & s3 & Hpos & Hrun).
  apply bind_ok_inv in Hrun as (x2 & s4 & Hdrop & Hrun).
  apply on_gen_inv in Hdrop as [Hc4 Hdrop].
  apply bind_ok_inv in Hrun as (u2 & s5 & Hlog2 & Hrun). apply log_inv in Hlog2 as [Hc5 Hg5].
  apply bind_ok_inv in Hrun as (xt & s6 & Htr & Hrun).
  apply bind_ok_inv in Hrun as (mask & s6' & Hmask & Hrun).
  apply lift_result_inv in Hmask as [Hmask <-].
  apply bind_ok_inv in Hrun as (xl & s7 & Hlayers & Hrun).
  apply bind_ok_inv in Hrun as (xn & s8 & Hnorm & Hrun).
  apply ret_inv in Hrun as [Hret <-]. injection Hret as <- <-.
  destruct (padding_idx self) as [p|] eqn:Hpad; [|discriminate].
  cbn [eq_scalar] in Hmask. apply Ok_inj in Hmask. subst mask.
  change (tensor_map (fun tok : Z => (tok =? p)%Z) src) with (padding_mask p src) in Hlayers |- *.
  change (if negb (any (padding_mask p src)) then None else Some (padding_mask p src))
    with (layers_mask p src) in Hlayers.
  apply run_layers_inv in Hlayers as (levs & Hlevs & Hc7).
  assert (Hp : exists pevs,
             match embed_positions self with
             | Some P => exists pos, positions P src = Ok pos /\
                  tensor_iop Rplus (tensor_map (Rmult (embed_scale self)) e) pos = Ok x1 /\
                  pevs = [EvEmbedPositions src pos]
             | None => x1 = tensor_map (Rmult (embed_scale self)) e /\ pevs = []
             end /\ calls s3 = calls s2 ++ pevs /\ gen s3 = gen s2).
  { destruct (embed_positions self) as [P|].
    - apply bind_ok_inv in Hpos as (pos & t1 & Hp & Hpos).
      apply lift_result_inv in Hp as [Hp <-].
      apply bind_ok_inv in Hpos as (u & t2 & Hlog & Hpos). apply log_inv in Hlog as [Hct Hgt].
      apply lift_result_inv in Hpos as [Hadd <-].
      exists [EvEmbedPositions src pos]. split; [|split; [exact Hct | exact Hgt]].
      exists pos. auto.
    - apply ret_inv in Hpos as [<- <-]. exists []. rewrite app_nil_r. auto. }
  destruct Hp as (pevs & Hpstage & Hc3 & Hg3).
  assert (Ht : transpose01 x2 = Ok xt /\ s6 = s5).
  { destruct (self_fuse_dropout_add self).
    - apply bind_ok_inv in Htr as (xt' & t1 & Htr & Hret).
      apply lift_result_inv in Htr as [Htr <-]. apply ret_inv in Hret as [<- <-].
      split; [exact Htr | reflexivity].
    - apply lift_result_inv in Htr as [Htr <-]. split; [exact Htr | reflexivity]. }
  destruct Ht as [Htr' ->].
  assert (Hn : exists nevs,
             (if normalize self
              then exists ln, layer_norm self = Some ln /\ norm ln xl = Ok xn /\
                              nevs = [EvLayerNorm xl xn]
              else xn = xl /\ nevs = []) /\ calls s8 = calls s7 ++ nevs /\ gen s8 = gen s7).
  { destruct (normalize self).
    - destruct (layer_norm self) as [ln|]; [|discriminate].
      apply bind_ok_inv in Hnorm as (z & t1 & Hz & Hnorm).
      apply lift_result_inv in Hz as [Hz <-].
      apply bind_ok_inv in Hnorm as (u & t2 & Hlog & Hnorm). apply log_inv in Hlog as [Hct Hgt].
      apply ret_inv in Hnorm as [<- <-].
      exists [EvLayerNorm xl z]. split; [|split; [exact Hct | exact Hgt]]. exists ln. auto.
    - apply ret_inv in Hnorm as [<- <-]. exists []. rewrite app_nil_r. auto. }
  destruct Hn as (nevs & Hnstage & Hc8 & Hg8).
  rewrite Hg3, Hg1 in Hdrop. rewrite Hg5 in Hlevs. rewrite <- Hg8 in Hlevs.
  exists p, e, x1, x2, (gen s4), xt, xl, pevs, levs, nevs.
  split; [reflexivity|]. split; [exact He|]. split; [exact Hpstage|]. split; [exact Hdrop|].
  split; [exact Htr'|]. split; [exact Hlevs|]. split; [exact Hnstage|]. split; [reflexivity|].
  rewrite Hc8, Hc7, Hc5, Hc4, Hc3, Hc1. rewrite <- !app_assoc. reflexivity.
Qed.


End EncoderForward.

Section EncoderTheorems.
Context `{Framework}.
Import TransformerEncoder.


(** C2. [TransformerEncoder.forward] scales the token embedding by
    the square root of [embed_tokens.embedding_dim]: the tensor that the
    positional embedding is added to (the tensor given to dropout, when
    there is no positional embedding) is
    [sqrt (embedding_dim) * embed_tokens(src_tokens)]. *)
Theorem forward_scales_embedding args emb left_pad st0 enc st1 mode src len st x m st' :
  __init__ args emb left_pad st0 = (Ok enc, st1) ->
  forward (train mode enc) src len st = (Ok (x, m), st') ->
  exists e scaled,
    embed emb src = Ok e /\
    embed_scale enc = sqrt (INR (embedding_dim emb)) /\
    shape scaled = shape e /\
    (forall idx, item scaled idx = (sqrt (INR (embedding_dim emb)) * item e idx)%R) /\
    exists fed x2,
      EvDropout fed (args_dropout args) mode x2 ∈ calls st' /\
      match embed_positions enc with
      | Some P => exists pos, positions P src = Ok pos /\ tensor_iop Rplus scaled pos = Ok fed
      | None => fed = scaled
      end.
Proof.
  intros Hinit Hrun.
  destruct (encoder_init_inv _ _ _ _ _ _ Hinit)
    as (Hemb & Hscale & _ & Hdrop & _).
  destruct (forward_inv _ _ _ _ _ _ _ Hrun)
    as (p & e & x1 & x2 & g1 & xt & xl & pevs & levs & nevs
        & _ & He & Hpos & _ & _ & _ & _ & _ & Hlog).
  change (embed_tokens (train mode enc)) with (embed_tokens enc) in He.
  change (embed_positions (train mode enc)) with (embed_positions enc) in Hpos.
  change (embed_scale (train mode enc)) with (embed_scale enc) in Hpos.
  change (dropout (train mode enc)) with (dropout enc) in Hlog.
  change (training (train mode enc)) with mode in Hlog.
  rewrite Hemb in He. rewrite Hscale in Hpos. rewrite Hdrop in Hlog.
  exists e, (tensor_map (Rmult (sqrt (INR (embedding_dim emb)))) e).
  split; [exact He|]. split; [exact Hscale|]. split; [reflexivity|].
  split; [reflexivity|].
  exists x1, x2. split.
  - rewrite Hlog. rewrite !elem_of_app. right. right. right. left. apply list_elem_of_singleton.
    reflexivity.
  - destruct (embed_positions enc) as [P|].
    + destruct Hpos as (pos & Hp & Hadd & _). exists pos. auto.
    + destruct Hpos as [-> _]. reflexivity.
Qed.

(** C8. The second component of the pair [TransformerEncoder.forward]
    returns is the mask [src_tokens == padding_idx], of the shape of
    [src_tokens]; it is that mask, all false, and not None, also when no
    token is the padding index.  None is only what the layers are
    given in that case.  (A run returns only when the embedding has a
    padding index.) *)
Theorem forward_returns_padding_mask args emb left_pad st0 enc st1 mode src len st x m st' :
  __init__ args emb left_pad st0 = (Ok enc, st1) ->
  forward (train mode enc) src len st = (Ok (x, m), st') ->
  exists p mask evs,
    emb_padding_idx emb = Some p /\
    m = Some mask /\
    shape mask = shape src /\
    (forall idx, item mask idx = Z.eqb (item src idx) p) /\
    calls st' = calls st ++ evs /\
    ((forall idx, in_shape idx (shape src) -> item src idx <> p) ->
     (forall idx, in_shape idx (shape src) -> item mask idx = false) /\
     forall l x' mk y, EvLayer l x' mk y ∈ evs -> mk = None) /\
    ((exists idx, in_shape idx (shape src) /\ item src idx = p) ->
     forall l x' mk y, EvLayer l x' mk y ∈ evs -> mk = Some mask).
Proof.
  intros Hinit Hrun.
  destruct (encoder_init_inv _ _ _ _ _ _ Hinit) as (_ & _ & Hpad & _).
  destruct (forward_inv _ _ _ _ _ _ _ Hrun)
    as (p & e & x1 & x2 & g1 & xt & xl & pevs & levs & nevs
        & Hp & _ & Hpos & _ & _ & Hlayers & Hn & Hm & Hlog).
  change (padding_idx (train mode enc)) with (padding_idx enc) in Hp.
  change (layers (train mode enc)) with (layers enc) in Hlayers.
  rewrite Hpad in Hp.
  set (mask := padding_mask p src) in *.
  assert (Hitem : forall idx, item mask idx = Z.eqb (item src idx) p).
  { intros idx. reflexivity. }
  assert (Hevs : forall l x' mk y,
             EvLayer l x' mk y ∈ [EvEmbedTokens src e] ++ pevs
               ++ [EvDropout x1 (dropout (train mode enc)) (training (train mode enc)) x2]
               ++ levs ++ nevs ->
             mk = layers_mask p src).
  { intros l x' mk y Hin. rewrite !elem_of_app in Hin.
    destruct Hin as [Hin | [Hin | [Hin | [Hin | Hin]]]].
    - apply list_elem_of_singleton in Hin. discriminate.
    - destruct (embed_positions (train mode enc)).
      + destruct Hpos as (pos & _ & _ & ->). apply list_elem_of_singleton in Hin. discriminate.
      + destruct Hpos as [_ ->]. inversion Hin.
    - apply list_elem_of_singleton in Hin. discriminate.
    - destruct (layer_calls_events _ _ _ _ _ _ _ Hlayers _ Hin) as (l' & x'' & y' & Heq).
      injection Heq as _ _ -> _. reflexivity.
    - destruct (normalize (train mode enc)).
      + destruct Hn as (ln & _ & _ & ->). apply list_elem_of_singleton in Hin. discriminate.
      + destruct Hn as [_ ->]. inversion Hin. }
  eexists p, mask, _. split; [exact Hp|]. split; [exact Hm|]. split; [reflexivity|].
  split; [exact Hitem|].
  split; [exact Hlog|]. split.
  - intros Hnopad.
    assert (Hfalse : forall idx, in_shape idx (shape src) -> item mask idx = false).
    { intros idx Hidx. rewrite Hitem. apply Z.eqb_neq. apply Hnopad. exact Hidx. }
    split; [exact Hfalse|].
    intros l x' mk y Hin. rewrite (Hevs _ _ _ _ Hin). unfold layers_mask.
    fold mask. destruct (any mask) eqn:Hany; [|reflexivity].
    apply any_true in Hany as (idx & Hidx & Htrue).
    rewrite (Hfalse idx Hidx) in Htrue. discriminate.
  - intros (idx & Hidx & Hpadded) l x' mk y Hin.
    rewrite (Hevs _ _ _ _ Hin). unfold layers_mask. fold mask.
    assert (Hany : any mask = true).
    { apply any_true. exists idx. split; [exact Hidx|]. rewrite Hitem. apply Z.eqb_eq.
      exact Hpadded. }
    rewrite Hany. reflexivity.
Qed.
End EncoderTheorems.

Section GeneratorFree.
Context `{Framework}.
Import TransformerEncoder.

Lemma generator_free_ret {A} (a : A) : generator_free (ret a).
Proof. exists (Ok a). intros st. split; reflexivity. Qed.

Lemma generator_free_raise {A} e : generator_free (@raise St A e).
Proof. exists (Raise e). intros st. split; reflexivity. Qed.

Lemma generator_free_lift {A} (r : result A) : generator_free (lift_result r).
Proof. exists r. intros st. split; reflexivity. Qed.

Lemma generator_free_log ev : generator_free (log ev).
Proof. exists (Ok tt). intros st. split; reflexivity. Qed.

Lemma generator_free_on_gen {A} (c : M Rng A) :
  (exists r, forall g, c g = (r, g)) -> generator_free (on_gen c).
Proof.
  intros [r Hr]. exists r. intros st. unfold on_gen. rewrite Hr. split; reflexivity.
Qed.

Lemma generator_free_bind {A B} (c : M St A) (k : A -> M St B) :
  generator_free c -> (forall a, generator_free (k a)) -> generator_free (bind c k).
Proof.
  intros [r Hr] Hk. destruct r as [a|e].
  - destruct (Hk a) as [r' Hr']. exists r'. intros st. unfold bind.
    destruct (Hr st) as [H1 H2]. destruct (c st) as [r0 s1]. cbn in H1, H2. subst r0.
    destruct (Hr' s1) as [H3 H4]. split; [exact H3 | congruence].
  - exists (Raise e). intros st. unfold bind.
    destruct (Hr st) as [H1 H2]. destruct (c st) as [r0 s1]. cbn in H1, H2. subst r0.
    split; [reflexivity | exact H2].
Qed.

Lemma run_layers_generator_free mask ls :
  (forall l, l ∈ ls -> forall x, exists r, forall g, layer_forward l x mask g = (r, g)) ->
  forall x, generator_free (run_layers ls mask x).
Proof.
  induction ls as [|l ls IH]; intros Hls x; [apply generator_free_ret|].
  cbn [run_layers]. apply generator_free_bind.
  - apply generator_free_on_gen. apply Hls. left.
  - intros y. apply generator_free_bind; [apply generator_free_log|].
    intros _. apply IH. intros l' Hl'. apply Hls. right. exact Hl'.
Qed.

Lemma encoder_forward_generator_free self src len :
  training self = false \/ dropout self = 0%R ->
  (forall l, l ∈ layers self -> forall x mask,
      exists r, forall g, layer_forward l x mask g = (r, g)) ->
  generator_free (forward self src len).
Proof.
  intros Hoff Hlayers. unfold forward.
  apply generator_free_bind; [apply generator_free_lift|]. intros e.
  apply generator_free_bind; [apply generator_free_log|]. intros _.
  apply generator_free_bind.
  { destruct (embed_positions self); [|apply generator_free_ret].
    apply generator_free_bind; [apply generator_free_lift|]. intros pos.
    apply generator_free_bind; [apply generator_free_log|]. intros _.
    apply generator_free_lift. }
  intros x1. apply generator_free_bind.
  { apply generator_free_on_gen. apply F_dropout_inactive. exact Hoff. }
  intros x2. apply generator_free_bind; [apply generator_free_log|]. intros _.
  apply generator_free_bind.
  { destruct (self_fuse_dropout_add self); [|apply generator_free_lift].
    apply generator_free_bind; [apply generator_free_lift|]. intros xt.
    apply generator_free_ret. }
  intros xt. apply generator_free_bind; [apply generator_free_lift|]. intros mask.
  apply generator_free_bind.
  { apply run_layers_generator_free. intros l Hl x. apply Hlayers. exact Hl. }
  intros xl. apply generator_free_bind; [|intros; apply generator_free_ret].
  destruct (normalize self); [|apply generator_free_ret].
  destruct (layer_norm self); [|apply generator_free_raise].
  apply generator_free_bind; [apply generator_free_lift|]. intros z.
  apply generator_free_bind; [apply generator_free_log|]. intros _.
  apply generator_free_ret.
Qed.
End GeneratorFree.

(** C7, amended. With dropout inactive (not training, or a dropout
    probability of 0) and layers that do not draw from the generator, the
    result of [TransformerEncoder.forward] is the same from every state
    and the generator is left as it was; likewise, without a condition on
    layers, for [PositionalEncoding.forward].  So two calls on the same
    inputs return the same outputs. *)
Theorem forward_deterministic :
  (forall (G : Generator) (F : Framework) (self : TransformerEncoder.t) src len,
      TransformerEncoder.training self = false \/ TransformerEncoder.dropout self = 0%R ->
      (forall l, l ∈ TransformerEncoder.layers self -> forall x mask,
          exists r, forall g, layer_forward l x mask g = (r, g)) ->
      exists r, forall st,
        (TransformerEncoder.forward self src len st).1 = r /\
        gen (TransformerEncoder.forward self src len st).2 = gen st) /\
  (forall (G : Generator) (self : PositionalEncoding.t) x,
      PositionalEncoding.training self = false \/ PositionalEncoding.dropout_p self = 0%R ->
      exists r, forall g, PositionalEncoding.forward self x g = (r, g)).
Proof.
  split.
  - intros G F self src len Hoff Hlayers.
    exact (encoder_forward_generator_free self src len Hoff Hlayers).
  - intros G self x Hoff. exact (forward_inactive self x Hoff).
Qed.

Section Examples.
Import TransformerEncoder.

Lemma example_init :
  exists enc st1,
    @__init__ keep_all example_framework example_args example_embedding true example_state
      = (Ok enc, st1).
Proof. eexists _, _. cbn -[INR sqrt]. reflexivity. Qed.

Lemma example_forward enc st1 :
  @__init__ keep_all example_framework example_args example_embedding true example_state
    = (Ok enc, st1) ->
  exists x m st',
    @forward keep_all (train false enc) example_tokens example_tokens st1
      = (Ok (x, m), st').
Proof.
  cbn -[INR sqrt]. unfold ret. intros Hinit. injection Hinit as <- <-.
  unfold forward, bind, lift_result, log, on_gen, ret.
  cbn -[INR sqrt F_dropout Rmult Rplus tensor_iop].
  unfold tensor_iop. cbn [shape tensor_map].
  destruct (decide _) as [_|Hn]; [|exfalso; apply Hn; apply broadcast_shapes_refl].
  rewrite (@F_dropout_identity keep_all) by (try lra; left; reflexivity).
  cbn -[Rmult Rplus]. eexists _, _, _. reflexivity.
Qed.




Lemma forward_scales_embedding_witness :
  exists enc st1 x m st',
    @__init__ keep_all example_framework example_args example_embedding true example_state
      = (Ok enc, st1) /\
    @forward keep_all (train false enc) example_tokens example_tokens st1
      = (Ok (x, m), st') /\
    embed_scale enc = sqrt (INR 4).
Proof.
  destruct example_init as (enc & st1 & Hinit).
  destruct (example_forward enc st1 Hinit) as (x & m & st' & Hrun).
  exists enc, st1, x, m, st'. split; [exact Hinit|]. split; [exact Hrun|].
  destruct (@forward_scales_embedding keep_all example_framework
              example_args example_embedding true example_state enc st1 false
              example_tokens example_tokens st1 x m st' Hinit Hrun)
    as (e & scaled & _ & Hscale & _).
  exact Hscale.
Defined.

Lemma forward_returns_padding_mask_witness :
  exists enc st1 x m st' mask,
    @__init__ keep_all example_framework example_args example_embedding true example_state
      = (Ok enc, st1) /\
    @forward keep_all (train false enc) example_tokens example_tokens st1
      = (Ok (x, m), st') /\
    m = Some mask /\ shape mask = [1; 3].
Proof.
  destruct example_init as (enc & st1 & Hinit).
  destruct (example_forward enc st1 Hinit) as (x & m & st' & Hrun).
  destruct (@forward_returns_padding_mask keep_all example_framework
              example_args example_embedding true example_state enc st1 false
              example_tokens example_tokens st1 x m st' Hinit Hrun)
    as (p & mask & evs & _ & Hm & Hshape & _).
  exists enc, st1, x, m, st', mask.
  split; [exact Hinit|]. split; [exact Hrun|]. split; [exact Hm | exact Hshape].
Defined.

Lemma forward_deterministic_witness :
  (exists r, forall st,
      (@forward keep_all example_encoder example_tokens example_tokens st).1 = r /\
      gen (@forward keep_all example_encoder example_tokens example_tokens st).2 = gen st) /\
  (exists r, forall g : @Rng keep_all,
      PositionalEncoding.forward
        (PositionalEncoding.mk 0 false (zeros [1; 3; 4])) (zeros [2; 3; 4]) g = (r, g)).
Proof.
  destruct forward_deterministic as [Henc Hpe]. split.
  - apply (Henc keep_all example_framework example_encoder example_tokens example_tokens).
    + left. reflexivity.
    + intros l Hl x mask. exists (Ok x). intros g.
      apply elem_of_cons in Hl as [-> | Hl]; [reflexivity|].
      apply list_elem_of_singleton in Hl. subst l. reflexivity.
  - apply (Hpe keep_all). left. reflexivity.
Defined.

(** A run of the encoder whose layer has a dropout of its own: the
    result depends on the state of the generator, which the run
    advances. *)
Lemma drawing_forward (g : nat) cs :
  exists x m cs',
    @forward flip drawing_encoder example_tokens example_tokens (@mkSt flip g cs)
      = (Ok (x, m), @mkSt flip (S g) cs') /\
    forall idx, item x idx = if Nat.even g then (sqrt (INR 4) * 1 / (1 - 1 / 2))%R else 0%R.
Proof.
  unfold forward, bind, lift_result, log, on_gen, ret.
  cbn -[INR sqrt F_dropout Rmult Rplus Rdiv].
  rewrite (@F_dropout_identity flip) by (lra || (right; reflexivity)).
  cbn -[INR sqrt F_dropout Rmult Rplus Rdiv].
  unfold F_dropout.
  rewrite (Rle_bool_true 0 (1 / 2)), (Rle_bool_true (1 / 2) 1) by lra.
  rewrite (Req_bool_false (1 / 2) 0), (Req_bool_false (1 / 2) 1) by lra.
  cbn -[INR sqrt Rmult Rplus Rdiv Rminus Nat.even].
  eexists _, _, _. split; [reflexivity|].
  intros idx. cbn -[INR sqrt Rmult Rplus Rdiv Rminus Nat.even].
  destruct idx as [|i [|j more]]; reflexivity.
Qed.

(** C7 as stated fails: the dropout of [drawing_encoder] is inactive,
    its probability being 0, but its layer has a dropout of its own, as
    the layers of the framework have.  Two calls of [forward], one after
    the other, on the same tokens return different tensors, and the first
    call has advanced the generator they share. *)
Lemma forward_drawing_layer_counterexample :
  dropout drawing_encoder = 0%R /\
  exists x1 m1 st1 x2 m2 st2,
    @forward flip drawing_encoder example_tokens example_tokens (@mkSt flip 0 [])
      = (Ok (x1, m1), st1) /\
    @forward flip drawing_encoder example_tokens example_tokens st1 = (Ok (x2, m2), st2) /\
    item x1 [0; 0; 0] <> item x2 [0; 0; 0] /\
    gen st1 <> 0.
Proof.
  split; [reflexivity|].
  destruct (drawing_forward 0 []) as (x1 & m1 & cs1 & H1 & Hx1).
  destruct (drawing_forward 1 cs1) as (x2 & m2 & cs2 & H2 & Hx2).
  exists x1, m1, (@mkSt flip 1 cs1), x2, m2, (@mkSt flip 2 cs2).
  split; [exact H1|]. split; [exact H2|]. split.
  - rewrite Hx1, Hx2. cbn [Nat.even].
    assert (Hs : (0 < sqrt (INR 4))%R) by (apply sqrt_lt_R0, lt_0_INR; lia).
    lra.
  - cbn [gen]. discriminate.
Qed.
End Examples.

(** * More properties *)

(** ** The table of positional encodings, continued *)

Section PositionalTableMore.
Import PositionalEncoding.

Lemma Rle_bool_false x y : (y < x)%R -> Rle_bool x y = false.
Proof. intros Hxy. unfold Rle_bool. destruct (Rle_dec x y); [lra | reflexivity]. Qed.

(** X1. [PositionalEncoding.__init__] validates the dropout probability:
    outside [0, 1] it raises ValueError, whatever the other arguments. *)
Theorem init_rejects_dropout d_model p max_len :
  (p < 0 \/ 1 < p)%R -> __init__ d_model p max_len = Raise ValueError.
Proof.
  intros Hp. unfold __init__.
  assert (Hc : Rle_bool 0 p && Rle_bool p 1 = false).
  { destruct Hp as [Hp | Hp].
    - rewrite (Rle_bool_false 0 p Hp). reflexivity.
    - rewrite (Rle_bool_false p 1 Hp). apply andb_false_r. }
  rewrite Hc. reflexivity.
Qed.

Lemma init_rejects_dropout_witness : __init__ 20 2 default_max_len = Raise ValueError.
Proof. apply init_rejects_dropout. right. lra. Defined.

(** X2. With a valid dropout probability, [PositionalEncoding.__init__]
    returns on every even positive [d_model], raises ZeroDivisionError on
    [d_model = 0], and raises RuntimeError on every odd [d_model] from 3 on
    (the cosines have one column more than the table has odd columns). *)
Theorem init_accepts_even_d_model d_model p max_len :
  (0 <= p <= 1)%R ->
  match d_model with
  | 0 => __init__ d_model p max_len = Raise ZeroDivisionError
  | _ => if Nat.even d_model
         then exists self, __init__ d_model p max_len = Ok self
         else 3 <= d_model -> __init__ d_model p max_len = Raise RuntimeError
  end.
Proof.
  intros Hp. destruct d_model as [|d'] eqn:Hd.
  - apply (init_raises 0 p max_len Hp). reflexivity.
  - rewrite <- Hd. assert (Hne : d_model <> 0) by lia. clear Hd d'.
    destruct (Nat.even d_model) eqn:He.
    + apply init_total; [exact Hne | | exact Hp].
      apply Nat.even_spec in He. destruct He as [k ->].
      rewrite Nat.mul_comm. apply Nat.Div0.mod_mul.
    + intros H3. apply (init_raises d_model p max_len Hp); [|exact H3].
      assert (Ho : Nat.odd d_model = true) by (rewrite <- Nat.negb_even, He; reflexivity).
      apply Nat.odd_spec in Ho. destruct Ho as [k ->].
      rewrite Nat.add_comm, Nat.mul_comm, Nat.Div0.mod_add. reflexivity.
Qed.

Lemma init_accepts_even_d_model_witness :
  (exists self, __init__ 20 0 default_max_len = Ok self) /\
  __init__ 5 0 default_max_len = Raise RuntimeError.
Proof.
  split.
  - apply (init_accepts_even_d_model 20 0 default_max_len). lra.
  - apply (init_accepts_even_d_model 5 0 default_max_len); [lra | lia].
Defined.

(** Every column is an even one or an odd one. *)
Lemma column_cases j : j = 2 * (j / 2) \/ j = 2 * (j / 2) + 1.
Proof.
  pose proof (Nat.div_mod_eq j 2). pose proof (Nat.mod_upper_bound j 2 ltac:(lia)). lia.
Qed.

(** X3. Every entry of the table lies between -1 and 1. *)
Theorem table_entries_bounded d_model p max_len self pos j :
  __init__ d_model p max_len = Ok self -> pos < max_len -> j < d_model ->
  (-1 <= item (pe self) ([0; pos; j])%nat <= 1)%R.
Proof.
  intros Hinit Hpos Hj.
  destruct (init_inv _ _ _ _ Hinit) as (_ & _ & _ & _ & _ & Hitem).
  destruct (Hitem pos (j / 2) Hpos) as [Hs Hc].
  destruct (column_cases j) as [Hj' | Hj'].
  - specialize (Hs ltac:(lia)). rewrite <- Hj' in Hs. rewrite Hs. apply SIN_bound.
  - specialize (Hc ltac:(lia)). rewrite <- Hj' in Hc. rewrite Hc. apply COS_bound.
Qed.

Lemma table_entries_bounded_witness :
  exists self, __init__ 4 0 3 = Ok self /\ (-1 <= item (pe self) ([0; 2; 3])%nat <= 1)%R.
Proof.
  destruct (init_total 4 0 3 ltac:(lia) eq_refl ltac:(lra)) as [self Hself].
  exists self. split; [exact Hself|].
  apply (table_entries_bounded 4 0 3 self 2 3 Hself); lia.
Defined.

(** X4. At every position, the entries [2i] and [2i+1] of the table are a
    point of the unit circle: their squares add up to 1. *)
Theorem table_pairs_on_unit_circle d_model p max_len self pos i :
  __init__ d_model p max_len = Ok self -> pos < max_len -> i < d_model / 2 ->
  (item (pe self) ([0; pos; 2 * i])%nat * item (pe self) ([0; pos; 2 * i])%nat
   + item (pe self) ([0; pos; 2 * i + 1])%nat * item (pe self) ([0; pos; 2 * i + 1])%nat = 1)%R.
Proof.
  intros Hinit Hpos Hi.
  destruct (init_inv _ _ _ _ Hinit) as (_ & _ & _ & _ & _ & Hitem).
  assert (Hlt : 2 * i + 1 < d_model) by (pose proof (Nat.div_mod_eq d_model 2); lia).
  destruct (Hitem pos i Hpos) as [Hs Hc]. rewrite Hs, Hc by lia.
  apply sin2_cos2.
Qed.

Lemma table_pairs_on_unit_circle_witness :
  exists self, __init__ 4 0 3 = Ok self /\
    (item (pe self) ([0; 2; 2 * 1])%nat * item (pe self) ([0; 2; 2 * 1])%nat
     + item (pe self) ([0; 2; 2 * 1 + 1])%nat * item (pe self) ([0; 2; 2 * 1 + 1])%nat = 1)%R.
Proof.
  destruct (init_total 4 0 3 ltac:(lia) eq_refl ltac:(lra)) as [self Hself].
  exists self. split; [exact Hself|].
  apply (table_pairs_on_unit_circle 4 0 3 self 2 1 Hself); [lia | cbn; lia].
Defined.

(** X5. The encoding of position [pos + k] is the encoding of [pos] with
    each pair (entry [2i], entry [2i+1]) rotated by the angle
    [k * 10000^(-2i/d_model)], which does not depend on [pos]. *)
Theorem table_shift_is_rotation d_model p max_len self pos k i :
  __init__ d_model p max_len = Ok self -> pos + k < max_len -> i < d_model / 2 ->
  let w := Rpower 10000 (- (2 * INR i) / INR d_model) in
  item (pe self) ([0; pos + k; 2 * i])%nat =
    (item (pe self) ([0; pos; 2 * i])%nat * cos (INR k * w)
     + item (pe self) ([0; pos; 2 * i + 1])%nat * sin (INR k * w))%R /\
  item (pe self) ([0; pos + k; 2 * i + 1])%nat =
    (item (pe self) ([0; pos; 2 * i + 1])%nat * cos (INR k * w)
     - item (pe self) ([0; pos; 2 * i])%nat * sin (INR k * w))%R.
Proof.
  intros Hinit Hpos Hi w.
  destruct (init_inv _ _ _ _ Hinit) as (Hd & _ & _ & _ & _ & Hitem).
  assert (Hlt : 2 * i + 1 < d_model) by (pose proof (Nat.div_mod_eq d_model 2); lia).
  destruct (Hitem (pos + k) i Hpos) as [Hs' Hc'].
  destruct (Hitem pos i ltac:(lia)) as [Hs Hc].
  rewrite Hs', Hc', Hs, Hc by lia.
  rewrite (div_term_power d_model i Hd). fold w.
  rewrite plus_INR, Rmult_plus_distr_r, sin_plus, cos_plus. split; ring.
Qed.

Lemma table_shift_is_rotation_witness :
  exists self, __init__ 4 0 3 = Ok self /\
    item (pe self) ([0; 1 + 1; 2 * 1])%nat =
      (item (pe self) ([0; 1; 2 * 1])%nat * cos (INR 1 * Rpower 10000 (- (2 * INR 1) / INR 4))
       + item (pe self) ([0; 1; 2 * 1 + 1])%nat * sin (INR 1 * Rpower 10000 (- (2 * INR 1) / INR 4)))%R.
Proof.
  destruct (init_total 4 0 3 ltac:(lia) eq_refl ltac:(lra)) as [self Hself].
  exists self. split; [exact Hself|].
  apply (table_shift_is_rotation 4 0 3 self 1 1 1 Hself); [lia | cbn; lia].
Defined.

(** X6. The entries of the table depend on [d_model] only: two modules
    built with different dropout probabilities and different [max_len]
    agree at every position both tables have. *)
Theorem table_independent_of_max_len d_model p p' max_len max_len' self self' pos j :
  __init__ d_model p max_len = Ok self -> __init__ d_model p' max_len' = Ok self' ->
  pos < max_len -> pos < max_len' -> j < d_model ->
  item (pe self) ([0; pos; j])%nat = item (pe self') ([0; pos; j])%nat.
Proof.
  intros Hinit Hinit' Hpos Hpos' Hj.
  destruct (init_inv _ _ _ _ Hinit) as (_ & _ & _ & _ & _ & Hitem).
  destruct (init_inv _ _ _ _ Hinit') as (_ & _ & _ & _ & _ & Hitem').
  destruct (Hitem pos (j / 2) Hpos) as [Hs Hc].
  destruct (Hitem' pos (j / 2) Hpos') as [Hs' Hc'].
  destruct (column_cases j) as [Hj' | Hj'].
  - specialize (Hs ltac:(lia)). specialize (Hs' ltac:(lia)).
    rewrite <- Hj' in Hs, Hs'. rewrite Hs, Hs'. reflexivity.
  - specialize (Hc ltac:(lia)). specialize (Hc' ltac:(lia)).
    rewrite <- Hj' in Hc, Hc'. rewrite Hc, Hc'. reflexivity.
Qed.

Lemma table_independent_of_max_len_witness :
  exists self self', __init__ 4 0 3 = Ok self /\ __init__ 4 1 7 = Ok self' /\
    item (pe self) ([0; 2; 3])%nat = item (pe self') ([0; 2; 3])%nat.
Proof.
  destruct (init_total 4 0 3 ltac:(lia) eq_refl ltac:(lra)) as [self Hself].
  destruct (init_total 4 1 7 ltac:(lia) eq_refl ltac:(lra)) as [self' Hself'].
  exists self, self'. split; [exact Hself|]. split; [exact Hself'|].
  apply (table_independent_of_max_len 4 0 1 3 7 self self' 2 3 Hself Hself'); lia.
Defined.
End PositionalTableMore.

(** ** PositionalEncoding.forward, continued *)

Section PositionalForwardMore.
Import PositionalEncoding.
Context `{Generator}.

(** X7. In evaluation mode, or with a dropout probability of 0,
    [PositionalEncoding.forward] on an input of shape (B, T, d_model),
    T <= max_len, returns exactly [x + pe]: entry (b, t, c) is
    [x[b, t, c] + pe[0, t, c]], and the generator is left as it was. *)
Theorem forward_without_dropout_is_sum d_model p max_len self0 mode B T x g :
  __init__ d_model p max_len = Ok self0 ->
  shape x = [B; T; d_model] -> T <= max_len ->
  mode = false \/ p = 0%R ->
  exists y,
    forward (train mode self0) x g = (Ok y, g) /\
    shape y = [B; T; d_model] /\
    forall b t c, b < B -> t < T -> c < d_model ->
      item y [b; t; c] = (item x [b; t; c] + item (pe self0) ([0; t; c])%nat)%R.
Proof.
  intros Hinit Hx HT Hoff.
  destruct (init_inv _ _ _ _ Hinit) as (_ & Hp & _).
  destruct (forward_on_embeddings d_model p max_len self0 mode B T x g Hinit Hx HT)
    as (sum & Hsum & Hfw).
  destruct (embedding_plus_table x (pe self0) B T d_model max_len Hx HT)
    as (sum' & Hsum' & Hss & Hitem).
  rewrite Hsum in Hsum'. apply Ok_inj in Hsum'. subst sum'.
  exists sum. rewrite Hfw, F_dropout_identity by assumption.
  split; [reflexivity|]. split; [rewrite Hss; exact Hx | exact Hitem].
Qed.

(** X8. What the notebook plots: for a module built with dropout 0,
    [forward] on [zeros(B, T, d_model)] returns the table itself at every
    batch index, so that the vector at the first position is
    [0, 1, 0, 1, ...]. *)
Theorem forward_on_zeros_shows_table d_model max_len self B T g :
  __init__ d_model 0 max_len = Ok self -> T <= max_len ->
  exists y,
    forward self (zeros [B; T; d_model]) g = (Ok y, g) /\
    (forall b t c, b < B -> t < T -> c < d_model ->
       item y [b; t; c] = item (pe self) [0; t; c]) /\
    (forall b, b < B -> 0 < T ->
       map (fun c => item y [b; 0; c]) (seq 0 d_model) = alternating d_model).
Proof.
  intros Hinit HT.
  destruct (init_inv _ _ _ _ Hinit) as (_ & Hp & Hdp & Htr & Hshape & Hitem).
  destruct (embedding_plus_table (zeros [B; T; d_model]) (pe self) B T d_model max_len
              eq_refl HT) as (sum & Hsum & Hss & Hsitem).
  exists sum.
  assert (Hrun : forward self (zeros [B; T; d_model]) g = (Ok sum, g)).
  { rewrite (forward_unfold self (zeros [B; T; d_model]) T max_len d_model g eq_refl Hshape).
    rewrite Hsum, Hdp. apply F_dropout_identity; [exact Hp | right; reflexivity]. }
  assert (Hy : forall b t c, b < B -> t < T -> c < d_model ->
               item sum [b; t; c] = item (pe self) [0; t; c]).
  { intros b t c Hb Ht Hc. rewrite (Hsitem b t c Hb Ht Hc).
    change (item (zeros [B; T; d_model]) [b; t; c]) with 0%R. apply Rplus_0_l. }
  split; [exact Hrun|]. split; [exact Hy|].
  intros b Hb HT0. unfold alternating. apply map_ext_in. intros c Hc. apply in_seq in Hc.
  rewrite (Hy b 0 c Hb HT0 ltac:(lia)).
  destruct (Hitem 0 (c / 2) ltac:(lia)) as [Hs Hcos].
  destruct (column_cases c) as [Hc' | Hc'].
  - specialize (Hs ltac:(lia)). rewrite <- Hc' in Hs. rewrite Hs.
    assert (He : Nat.even c = true)
      by (rewrite Hc'; apply Nat.even_spec; exists (c / 2); reflexivity).
    rewrite He. cbn [INR]. rewrite Rmult_0_l. apply sin_0.
  - specialize (Hcos ltac:(lia)). rewrite <- Hc' in Hcos. rewrite Hcos.
    assert (He : Nat.even c = false).
    { rewrite <- Nat.negb_odd. rewrite Hc'.
      assert (Ho : Nat.odd (2 * (c / 2) + 1) = true)
        by (apply Nat.odd_spec; exists (c / 2); reflexivity).
      rewrite Ho. reflexivity. }
    rewrite He. cbn [INR]. rewrite Rmult_0_l. apply cos_0.
Qed.

(** X9. On a tensor with fewer than two dimensions
    [PositionalEncoding.forward] raises IndexError (there is no
    [x.size(1)]) and leaves the generator as it was. *)
Theorem forward_needs_two_dimensions self (x : tensor R) g :
  length (shape x) < 2 -> forward self x g = (Raise IndexError, g).
Proof.
  intros Hlen. unfold forward, bind, lift_result, size.
  destruct (shape x) as [|a [|b rest]]; cbn in Hlen; [reflexivity | reflexivity | lia].
Qed.

Lemma broadcast_seq_mismatch B T ml d :
  T <> ml -> T <> 1 -> ml <> 1 -> broadcast_shapes [B; T; d] [1; ml; d] = None.
Proof.
  intros H1 H2 H3. unfold broadcast_shapes. cbn -[Nat.eqb]. rewrite Nat.eqb_refl.
  destruct (T =? ml) eqn:E1; [apply Nat.eqb_eq in E1; contradiction|].
  destruct (T =? 1) eqn:E2; [apply Nat.eqb_eq in E2; contradiction|].
  destruct (ml =? 1) eqn:E3; [apply Nat.eqb_eq in E3; contradiction|].
  reflexivity.
Qed.

(** X10. With a table of at least two positions, an input of shape
    (B, T, d_model) with T > max_len makes [PositionalEncoding.forward]
    raise RuntimeError: the slice of the table has only [max_len] rows. *)
Theorem forward_rejects_long_sequences d_model p max_len self0 mode B T x g :
  __init__ d_model p max_len = Ok self0 ->
  shape x = [B; T; d_model] -> 2 <= max_len -> max_len < T ->
  forward (train mode self0) x g = (Raise RuntimeError, g).
Proof.
  intros Hinit Hx Hml HT.
  destruct (init_inv _ _ _ _ Hinit) as (_ & _ & _ & _ & Hshape & _).
  rewrite (forward_unfold (train mode self0) x T max_len d_model g);
    [| rewrite Hx; reflexivity | exact Hshape].
  unfold tensor_binop. rewrite Hx. change (shape (mkTensor ?s _)) with s.
  rewrite Nat.min_r by lia. rewrite broadcast_seq_mismatch by lia. reflexivity.
Qed.

Lemma broadcast_one_position B T d :
  broadcast_shapes [B; T; d] [1; Nat.min T 1; d] = Some [B; T; d].
Proof.
  unfold broadcast_shapes.
  destruct T as [|[|T'']]; cbn [Nat.min reverse rev_append broadcast_rev];
    rewrite !Nat.eqb_refl; cbn -[Nat.eqb];
    destruct (B =? 1) eqn:E; cbn -[Nat.eqb]; reflexivity.
Qed.

(** X11. With [max_len = 1] no sequence length is rejected: in evaluation
    mode [forward] returns on every input of shape (B, T, d_model), and
    broadcasting gives every position the encoding of position 0. *)
Theorem forward_one_position_table d_model p self0 B T x g :
  __init__ d_model p 1 = Ok self0 ->
  shape x = [B; T; d_model] ->
  exists y,
    forward (train false self0) x g = (Ok y, g) /\
    shape y = [B; T; d_model] /\
    forall b t c, b < B -> t < T -> c < d_model ->
      item y [b; t; c] = (item x [b; t; c] + item (pe self0) ([0; 0; c])%nat)%R.
Proof.
  intros Hinit Hx.
  destruct (init_inv _ _ _ _ Hinit) as (_ & Hp & Hdp & _ & Hshape & _).
  rewrite (forward_unfold (train false self0) x T 1 d_model g);
    [| rewrite Hx; reflexivity | exact Hshape].
  unfold tensor_binop. rewrite Hx. change (shape (mkTensor ?s _)) with s.
  rewrite broadcast_one_position.
  change (dropout_p (train false self0)) with (dropout_p self0). rewrite Hdp.
  rewrite F_dropout_identity; [| exact Hp | left; reflexivity].
  eexists. split; [reflexivity|]. split; [reflexivity|].
  intros b t c Hb Ht Hc. unfold item at 1.
  rewrite !bidx_3_3, (bsel B b Hb), (bsel T t Ht), (bsel d_model c Hc).
  rewrite Nat.eqb_refl.
  assert (Hmin : (if Nat.min T 1 =? 1 then 0 else t) = 0).
  { destruct (Nat.min T 1 =? 1) eqn:E; [reflexivity|]. apply Nat.eqb_neq in E. lia. }
  rewrite Hmin. reflexivity.
Qed.

(** X12. In training mode with 0 < p < 1, [PositionalEncoding.forward]
    on an input of shape (B, T, d_model), T <= max_len, returns a tensor of
    that shape in which every entry is 0 or
    [(x[b, t, c] + pe[0, t, c]) / (1 - p)]. *)
Theorem forward_training_drops_or_scales d_model p max_len self0 B T x g :
  __init__ d_model p max_len = Ok self0 ->
  shape x = [B; T; d_model] -> T <= max_len -> (0 < p < 1)%R ->
  exists y g',
    forward self0 x g = (Ok y, g') /\
    shape y = [B; T; d_model] /\
    forall b t c, b < B -> t < T -> c < d_model ->
      item y [b; t; c] = 0%R \/
      item y [b; t; c] =
        ((item x [b; t; c] + item (pe self0) ([0; t; c])%nat) / (1 - p))%R.
Proof.
  intros Hinit Hx HT Hp.
  destruct (init_inv _ _ _ _ Hinit) as (_ & _ & Hdp & Htr & Hshape & _).
  destruct (embedding_plus_table x (pe self0) B T d_model max_len Hx HT)
    as (sum & Hsum & Hss & Hitem).
  rewrite (forward_unfold self0 x T max_len d_model g); [| rewrite Hx; reflexivity | exact Hshape].
  rewrite Hsum, Hdp, Htr. unfold F_dropout, raise, ret.
  rewrite (Rle_bool_true 0 p), (Rle_bool_true p 1) by lra. cbn [andb negb orb].
  rewrite (Req_bool_false p 0), (Req_bool_false p 1) by lra. cbn [orb].
  destruct (numel (shape sum) =? 0) eqn:En.
  - exists sum, g. split; [reflexivity|]. split; [rewrite Hss; exact Hx|].
    intros b t c Hb Ht Hc. exfalso.
    apply Nat.eqb_eq in En. rewrite Hss, Hx in En. cbn in En. destruct B, T, d_model; cbn in En; lia.
  - destruct (bernoulli (1 - p)%R (shape sum) g) as [mask g'].
    exists (mkTensor (shape sum) (fun idx => if item mask idx then (item sum idx / (1 - p))%R else 0%R)), g'.
    split; [reflexivity|]. split; [cbn; rewrite Hss; exact Hx|].
    intros b t c Hb Ht Hc. cbn [item]. destruct (item mask [b; t; c]).
    + right. rewrite (Hitem b t c Hb Ht Hc). reflexivity.
    + left. reflexivity.
Qed.
End PositionalForwardMore.

Section PositionalForwardMoreExamples.
Import PositionalEncoding.

Lemma forward_without_dropout_is_sum_witness :
  exists self0 y,
    __init__ 4 0 3 = Ok self0 /\
    @forward keep_all (train false self0) (zeros [2; 3; 4]) 0 = (Ok y, 0) /\
    shape y = [2; 3; 4].
Proof.
  destruct (init_total 4 0 3 ltac:(lia) eq_refl ltac:(lra)) as [self0 Hself].
  destruct (@forward_without_dropout_is_sum keep_all 4 0 3 self0 false 2 3
              (zeros [2; 3; 4]) 0 Hself eq_refl ltac:(lia) ltac:(left; reflexivity))
    as (y & Hy & Hs & _).
  exists self0, y. split; [exact Hself|]. split; [exact Hy | exact Hs].
Defined.

Lemma forward_on_zeros_shows_table_witness :
  exists self y,
    __init__ 20 0 default_max_len = Ok self /\
    @forward keep_all self (zeros [1; 100; 20]) 0 = (Ok y, 0) /\
    map (fun c => item y [0; 0; c]) (seq 0 20) = alternating 20.
Proof.
  destruct (init_total 20 0 default_max_len ltac:(lia) eq_refl ltac:(lra)) as [self Hself].
  destruct (@forward_on_zeros_shows_table keep_all 20 default_max_len self 1 100 0 Hself
              ltac:(unfold default_max_len; lia)) as (y & Hy & _ & Hrow).
  exists self, y. split; [exact Hself|]. split; [exact Hy|].
  apply (Hrow 0); lia.
Defined.

Lemma forward_needs_two_dimensions_witness :
  @forward keep_all (mk 0 true (zeros [1; 3; 4])) (zeros [3]) 0 = (Raise IndexError, 0).
Proof. apply (@forward_needs_two_dimensions keep_all). cbn. lia. Defined.

Lemma forward_rejects_long_sequences_witness :
  exists self0,
    __init__ 4 0 3 = Ok self0 /\
    @forward keep_all (train false self0) (zeros [2; 5; 4]) 0 = (Raise RuntimeError, 0).
Proof.
  destruct (init_total 4 0 3 ltac:(lia) eq_refl ltac:(lra)) as [self0 Hself].
  exists self0. split; [exact Hself|].
  apply (@forward_rejects_long_sequences keep_all 4 0 3 self0 false 2 5 (zeros [2; 5; 4]) 0
           Hself eq_refl); lia.
Defined.

Lemma forward_one_position_table_witness :
  exists self0 y,
    __init__ 4 0 1 = Ok self0 /\
    @forward keep_all (train false self0) (zeros [2; 5; 4]) 0 = (Ok y, 0) /\
    shape y = [2; 5; 4].
Proof.
  destruct (init_total 4 0 1 ltac:(lia) eq_refl ltac:(lra)) as [self0 Hself].
  destruct (@forward_one_position_table keep_all 4 0 self0 2 5 (zeros [2; 5; 4]) 0
              Hself eq_refl) as (y & Hy & Hs & _).
  exists self0, y. split; [exact Hself|]. split; [exact Hy | exact Hs].
Defined.

Lemma forward_training_drops_or_scales_witness :
  exists self0 y g',
    __init__ 4 (1 / 2) 3 = Ok self0 /\
    @forward keep_all self0 (zeros [2; 3; 4]) 0 = (Ok y, g') /\
    shape y = [2; 3; 4].
Proof.
  destruct (init_total 4 (1 / 2) 3 ltac:(lia) eq_refl ltac:(lra)) as [self0 Hself].
  destruct (@forward_training_drops_or_scales keep_all 4 (1 / 2) 3 self0 2 3
              (zeros [2; 3; 4]) 0 Hself eq_refl ltac:(lia) ltac:(lra))
    as (y & g' & Hy & Hs & _).
  exists self0, y, g'. split; [exact Hself|]. split; [exact Hy | exact Hs].
Defined.
End PositionalForwardMoreExamples.

(** ** [normalize], continued *)

Section NormalizeMore.
Context {dt : dtype}.

Lemma normalize_row_raises (h : store) arr out (a o : ndarray) k vals e :
  arr <> out -> h !! arr = Some a -> a !! k = Some vals ->
  normalized_row vals = Raise e ->
  normalize_row arr out k (<[out := o]> h) = (Raise e, <[out := o]> h).
Proof.
  intros Hne Harr Hk Hr.
  assert (Hlt : k < length a) by (eapply lookup_lt_Some; exact Hk).
  assert (Hview : get_view arr k (<[out := o]> h) = (Ok (mkView arr k), <[out := o]> h)).
  { unfold get_view. rewrite lookup_insert_ne by congruence. rewrite Harr.
    destruct (Nat.ltb_spec k (length a)); [reflexivity | lia]. }
  assert (Hread : read_view (mkView arr k) (<[out := o]> h) = (Ok vals, <[out := o]> h)).
  { unfold read_view. cbn [base row]. rewrite lookup_insert_ne by congruence.
    rewrite Harr, Hk. reflexivity. }
  unfold normalize_row, bind, lift_result. rewrite Hview, Hread, Hread.
  unfold normalized_row in Hr.
  destruct (np_min vals) as [mn|e1] eqn:Hmn.
  - rewrite Hread. destruct (np_max vals) as [mx|e2] eqn:Hmx; [discriminate|].
    injection Hr as ->. reflexivity.
  - injection Hr as ->. reflexivity.
Qed.

Lemma normalize_loop_raises (h : store) arr out e : forall rest done pre (a : ndarray),
  a = done ++ rest -> length pre = length done ->
  arr <> out -> h !! arr = Some a -> normalized rest = Raise e ->
  exists o',
    normalize_loop arr out (seq (length done) (length rest))
      (<[out := pre ++ zero_rows rest]> h) = (Raise e, <[out := o']> h).
Proof.
  induction rest as [|vals rest IH]; intros done pre a Ha Hlen Hne Harr Hrs.
  - discriminate.
  - cbn [normalized] in Hrs. cbn [length seq normalize_loop]. unfold bind at 1.
    assert (Hk : a !! length done = Some vals)
      by (subst a; apply list_lookup_middle; reflexivity).
    destruct (normalized_row vals) as [r|e1] eqn:Hr.
    + rewrite (normalize_row_step h arr out a _ (length done) vals
                 ((fun _ => Num 0) <$> vals) r);
        [ | exact Hne | exact Harr | exact Hk
          | cbn [zero_rows fmap list_fmap]; apply list_lookup_middle; symmetry; exact Hlen
          | apply length_fmap | exact Hr ].
      destruct (normalized rest) as [rs'|e2] eqn:Hrs'; [discriminate|].
      injection Hrs as ->.
      cbn [zero_rows fmap list_fmap].
      rewrite insert_app_r_alt by lia. rewrite Hlen, Nat.sub_diag. cbn [insert list_insert].
      change (list_fmap _ _ (fun vals0 => list_fmap _ _ (fun _ => Num 0) vals0) rest)
        with (zero_rows rest).
      rewrite (cons_middle r pre), !app_assoc.
      replace (S (length done)) with (length (done ++ [vals])) by (rewrite length_app; cbn; lia).
      apply (IH (done ++ [vals]) (pre ++ [r]) a).
      * rewrite <- app_assoc. exact Ha.
      * rewrite !length_app, Hlen. reflexivity.
      * exact Hne.
      * exact Harr.
      * reflexivity.
    + injection Hrs as ->.
      rewrite (normalize_row_raises h arr out a _ (length done) vals e Hne Harr Hk Hr).
      eexists. reflexivity.
Qed.

(** A run of [normalize], whatever its outcome: the result is that of
    [normalized], and the store is the old one with one array more. *)
Lemma normalize_run (h : store) arr (a : ndarray) :
  h !! arr = Some a ->
  exists b',
    normalize arr h =
      (match normalized a with Ok _ => Ok (fresh (dom h)) | Raise e => Raise e end,
       <[fresh (dom h) := b']> h) /\
    forall b, normalized a = Ok b -> b' = b.
Proof.
  intros Harr. destruct (normalized a) as [b|e] eqn:Hb.
  - exists b. split; [apply (normalize_normalized h arr a b Harr Hb)|].
    intros b0 Hb0. congruence.
  - unfold normalize, bind at 1, zeros_like. rewrite Harr.
    set (out := fresh (dom h)).
    assert (Hne : arr <> out).
    { intros ->. apply (is_fresh (dom h)). apply elem_of_dom. eauto. }
    unfold bind at 1, shape0. rewrite lookup_insert_ne by congruence. rewrite Harr.
    unfold bind at 1.
    destruct (normalize_loop_raises h arr out e a [] [] a eq_refl eq_refl Hne Harr Hb)
      as (o' & Hloop).
    cbn [length app] in Hloop. unfold zero_rows in Hloop. rewrite Hloop.
    exists o'. split; [reflexivity | discriminate].
Qed.

Lemma fmin_NaN_r a : fmin a NaN = NaN.
Proof. destruct a; reflexivity. Qed.

Lemma foldl_fmin_has_NaN vs : forall a, NaN ∈ a :: vs -> foldl fmin a vs = NaN.
Proof.
  induction vs as [|v vs IH]; intros a Hin.
  - apply list_elem_of_singleton in Hin. subst a. reflexivity.
  - cbn. apply elem_of_cons in Hin as [<- | Hin]; [apply foldl_fmin_NaN|].
    apply IH. apply elem_of_cons in Hin as [<- | Hin]; [|right; exact Hin].
    rewrite fmin_NaN_r. left.
Qed.

Lemma np_min_NaN vals : NaN ∈ vals -> np_min vals = Ok NaN.
Proof.
  intros Hin. destruct vals as [|v vs]; [inversion Hin|]. cbn. f_equal.
  apply foldl_fmin_has_NaN. exact Hin.
Qed.


Lemma normalized_row_NaN vals :
  NaN ∈ vals -> normalized_row vals = Ok ((fun _ => NaN) <$> vals).
Proof.
  intros Hin. pose proof (np_min_NaN vals Hin) as Hmn.
  unfold normalized_row. rewrite Hmn.
  destruct (np_max vals) as [mx|e] eqn:Hmx.
  - f_equal. apply list_fmap_ext. intros k e _. destruct e; reflexivity.
  - destruct vals; [inversion Hin | discriminate].
Qed.

(** The outcome of a row whose range overflows. *)
Lemma normalized_row_overflow vals mn mx :
  np_min vals = Ok (Num mn) -> np_max vals = Ok (Num mx) ->
  (overflow_threshold <= mx - mn)%R ->
  forall orow, normalized_row vals = Ok orow ->
  forall k x, vals !! k = Some (Num x) ->
    ((x - mn < overflow_threshold)%R -> orow !! k = Some (Num 0)) /\
    ((overflow_threshold <= x - mn)%R -> orow !! k = Some NaN).
Proof.
  intros Hmn Hmx Hover orow Horow k x Hk.
  pose proof (row_between _ _ _ Hmn Hmx) as Hb. rewrite Forall_forall in Hb.
  destruct (Hb (Num x)) as (x' & Hx' & Hx); [eapply list_elem_of_lookup_2; exact Hk|].
  injection Hx' as <-.
  rewrite (normalized_row_eq _ _ _ Hmn Hmx) in Horow. apply Ok_inj in Horow. subst orow.
  rewrite list_lookup_fmap, Hk. cbn [fmap option_fmap option_map fsub].
  rewrite (fit_overflow (mx - mn)) by exact Hover.
  split; intros Hd.
  - rewrite (fit_between (x - mn)) by lra. reflexivity.
  - rewrite (fit_overflow (x - mn)) by exact Hd. reflexivity.
Qed.


(** X14. A NaN anywhere in a row makes the whole row NaN in the result of
    [normalize]. *)
Theorem normalize_nan_spreads_over_row (h : store) arr (a : ndarray) n c r vals :
  h !! arr = Some a -> is_matrix n c a -> a !! r = Some vals -> NaN ∈ vals ->
  exists b orow,
    normalize arr h = (Ok (fresh (dom h)), <[fresh (dom h) := b]> h) /\
    b !! r = Some orow /\ length orow = length vals /\ Forall (eq NaN) orow.
Proof.
  intros Harr Hmat Hr Hnan.
  assert (Hc : 1 <= c).
  { destruct Hmat as [_ Hall]. rewrite Forall_forall in Hall.
    assert (Hin : vals ∈ a) by (apply list_elem_of_lookup; exists r; exact Hr).
    rewrite <- (Hall vals Hin). destruct vals; [inversion Hnan | cbn; lia]. }
  destruct (normalized_nonempty a (matrix_rows_nonempty n c a Hmat Hc)) as [b Hb].
  destruct (normalized_lookup a b r vals Hb Hr) as (orow & Horow & Hbr).
  rewrite (normalized_row_NaN vals Hnan) in Horow. apply Ok_inj in Horow.
  exists b, orow. split; [exact (normalize_normalized h arr a b Harr Hb)|].
  split; [exact Hbr|]. subst orow. split; [apply length_fmap|].
  apply Forall_fmap, Forall_true. intros e. reflexivity.
Qed.

(** X15. On a matrix with no rows [normalize] returns a new empty array;
    on a matrix with rows but no columns it raises ValueError (the minimum
    of an empty row). *)
Theorem normalize_empty_matrices (h : store) arr (a : ndarray) :
  h !! arr = Some a ->
  (a = [] -> normalize arr h = (Ok (fresh (dom h)), <[fresh (dom h) := []]> h)) /\
  (forall n, is_matrix n 0 a -> 1 <= n -> (normalize arr h).1 = Raise ValueError).
Proof.
  intros Harr. split.
  - intros ->. apply (normalize_normalized h arr [] [] Harr eq_refl).
  - intros n [Hlen Hall] Hn.
    destruct (normalize_run h arr a Harr) as (b' & Hrun & _). rewrite Hrun. cbn [fst].
    destruct a as [|vals rest]; [cbn in Hlen; lia|].
    apply Forall_cons in Hall as [Hvals _]. apply length_zero_iff_nil in Hvals. subst vals.
    reflexivity.
Qed.

Lemma normalized_shape a : forall b,
  normalized a = Ok b -> Forall2 (fun vals orow => length orow = length vals) a b.
Proof.
  induction a as [|vals a IH]; intros b Hb.
  - apply Ok_inj in Hb. subst b. constructor.
  - cbn [normalized] in Hb.
    destruct (normalized_row vals) as [r|] eqn:Hr; [|discriminate].
    destruct (normalized a) as [rs|] eqn:Hrs; [|discriminate].
    apply Ok_inj in Hb. subst b. constructor; [|apply IH; reflexivity].
    unfold normalized_row in Hr.
    destruct (np_min vals); [|discriminate]. destruct (np_max vals); [|discriminate].
    apply Ok_inj in Hr. subst r. apply length_fmap.
Qed.

(** X16. When [normalize] returns, the new array has as many rows as
    its argument, and each row has the length of the row it comes from. *)
Theorem normalize_keeps_shape (h : store) arr (a : ndarray) out h' :
  h !! arr = Some a -> normalize arr h = (Ok out, h') ->
  exists b,
    h' !! out = Some b /\ length b = length a /\
    forall r vals, a !! r = Some vals ->
      exists orow, b !! r = Some orow /\ length orow = length vals.
Proof.
  intros Harr Hrun.
  destruct (normalize_run h arr a Harr) as (b' & Hrun' & Hb').
  rewrite Hrun in Hrun'.
  destruct (normalized a) as [b|e] eqn:Hb; [|discriminate].
  injection Hrun' as -> ->. rewrite (Hb' b eq_refl).
  pose proof (normalized_shape a b Hb) as Hshape.
  exists b. split; [apply lookup_insert_eq|].
  split; [symmetry; exact (Forall2_length _ _ _ Hshape)|].
  intros r vals Hr.
  destruct (Forall2_lookup_l _ _ _ _ _ Hshape Hr) as (orow & Horow & Hlen).
  exists orow. split; assumption.
Qed.

(** X17. [normalize] allocates exactly one array: afterwards the store
    holds the addresses it held plus one new address, different from the
    argument, and that address is what a returning call returns. *)
Theorem normalize_allocates_one_array (h : store) arr (a : ndarray) :
  h !! arr = Some a ->
  dom (normalize arr h).2 = {[fresh (dom h)]} ∪ dom h /\
  fresh (dom h) <> arr /\
  forall out, (normalize arr h).1 = Ok out -> out = fresh (dom h) /\ out ∉ dom h.
Proof.
  intros Harr. destruct (normalize_run h arr a Harr) as (b' & Hrun & _). rewrite Hrun.
  cbn [fst snd]. split; [apply dom_insert_L|]. split.
  - intros Heq. apply (is_fresh (dom h)). rewrite Heq. apply elem_of_dom. eauto.
  - intros out Hout. destruct (normalized a); [|discriminate].
    injection Hout as <-. split; [reflexivity | apply is_fresh].
Qed.
(** X19. [normalize] never reverses the order inside a row: in a row of
    finite numbers whose maximum exceeds its minimum and whose range does
    not overflow, an entry that is at most another one is at most that
    other one after the call as well. *)
Theorem normalize_keeps_order (h : store) arr (a : ndarray) n c r vals i j x y :
  h !! arr = Some a -> is_matrix n c a -> a !! r = Some vals -> spread vals ->
  vals !! i = Some (Num x) -> vals !! j = Some (Num y) ->
  exists b orow x' y',
    normalize arr h = (Ok (fresh (dom h)), <[fresh (dom h) := b]> h) /\
    b !! r = Some orow /\
    orow !! i = Some (Num x') /\ orow !! j = Some (Num y') /\
    ((x <= y)%R -> (x' <= y')%R).
Proof.
  intros Harr Hmat Hr (mn & mx & Hmn & Hmx & Hlt & Hfin) Hi Hj.
  assert (Hc : 1 <= c).
  { destruct Hmat as [_ Hall]. rewrite Forall_forall in Hall.
    assert (Hin : vals ∈ a) by (apply list_elem_of_lookup; exists r; exact Hr).
    rewrite <- (Hall vals Hin). destruct vals; [discriminate | cbn; lia]. }
  destruct (normalized_nonempty a (matrix_rows_nonempty n c a Hmat Hc)) as [b Hb].
  destruct (normalized_lookup a b r vals Hb Hr) as (orow & Horow & Hbr).
  destruct (normalized_row_spread vals mn mx Hmn Hmx Hlt Hfin) as (Hrow & _ & _ & _ & Hk).
  rewrite Hrow in Horow. apply Ok_inj in Horow. subst orow.
  exists b, (rescale mn mx <$> vals), ((x - mn) / (mx - mn))%R, ((y - mn) / (mx - mn))%R.
  split; [exact (normalize_normalized h arr a b Harr Hb)|].
  split; [exact Hbr|]. split; [exact (Hk i x Hi)|]. split; [exact (Hk j y Hj)|].
  assert (Hpos : (0 < / (mx - mn))%R) by (apply Rinv_0_lt_compat; lra).
  unfold Rdiv. intros Hle. apply Rmult_le_compat_r; lra.
Qed.

(** X26. A row whose range [max - min] overflows does not make
    [normalize] raise: the entries whose distance from the minimum does
    not overflow, the minimum among them, come out as 0, and the others,
    the maximum among them, as NaN. *)
Theorem normalize_overflowing_row (h : store) arr (a : ndarray) n c r vals mn mx :
  h !! arr = Some a -> is_matrix n c a -> a !! r = Some vals ->
  np_min vals = Ok (Num mn) -> np_max vals = Ok (Num mx) ->
  (overflow_threshold <= mx - mn)%R ->
  exists b orow,
    normalize arr h = (Ok (fresh (dom h)), <[fresh (dom h) := b]> h) /\
    b !! r = Some orow /\
    (forall k x, vals !! k = Some (Num x) ->
       ((x - mn < overflow_threshold)%R -> orow !! k = Some (Num 0)) /\
       ((overflow_threshold <= x - mn)%R -> orow !! k = Some NaN)) /\
    Num 0 ∈ orow /\ NaN ∈ orow.
Proof.
  intros Harr Hmat Hr Hmn Hmx Hover. pose proof overflow_threshold_above_1 as H1.
  assert (Hc : 1 <= c).
  { destruct Hmat as [_ Hall]. rewrite Forall_forall in Hall.
    assert (Hin : vals ∈ a) by (apply list_elem_of_lookup; exists r; exact Hr).
    rewrite <- (Hall vals Hin). destruct vals; [discriminate | cbn; lia]. }
  destruct (normalized_nonempty a (matrix_rows_nonempty n c a Hmat Hc)) as [b Hb].
  destruct (normalized_lookup a b r vals Hb Hr) as (orow & Horow & Hbr).
  pose proof (normalized_row_overflow vals mn mx Hmn Hmx Hover orow Horow) as Hk.
  exists b, orow. split; [exact (normalize_normalized h arr a b Harr Hb)|].
  split; [exact Hbr|]. split; [exact Hk|].
  destruct (np_min_inv _ _ Hmn) as [Hmin_in _]. destruct (np_max_inv _ _ Hmx) as [Hmax_in _].
  apply list_elem_of_lookup in Hmin_in as [kmin Hkmin].
  apply list_elem_of_lookup in Hmax_in as [kmax Hkmax].
  split.
  - apply list_elem_of_lookup. exists kmin. apply (Hk kmin mn Hkmin). lra.
  - apply list_elem_of_lookup. exists kmax. apply (Hk kmax mx Hkmax). exact Hover.
Qed.
End NormalizeMore.

Section NormalizeMoreExamples.


Lemma normalize_nan_spreads_over_row_witness :
  exists (b : ndarray) (orow : list npfloat),
    normalize (dt := float32) 0 nan_row_store
      = (Ok (fresh (dom nan_row_store)), <[fresh (dom nan_row_store) := b]> nan_row_store) /\
    b !! 0 = Some orow /\ length orow = 2 /\ Forall (eq NaN) orow.
Proof.
  apply (normalize_nan_spreads_over_row (dt := float32) nan_row_store 0
           [[Num 1; NaN]] 1 2 0 [Num 1; NaN]
           (lookup_singleton_eq 0 [[Num 1; NaN]]) (matrix_1_2 (Num 1) NaN) eq_refl).
  right. left.
Defined.

Lemma normalize_empty_matrices_witness :
  (normalize (dt := float32) 0 no_column_store).1 = Raise ValueError.
Proof.
  destruct (normalize_empty_matrices (dt := float32) no_column_store 0 [[]; []]
              (lookup_singleton_eq 0 [[]; []])) as [_ Hraise].
  apply (Hraise 2); [|lia].
  split; [reflexivity|]. constructor; [reflexivity|]. constructor; [reflexivity | constructor].
Defined.

Lemma normalize_keeps_shape_witness :
  exists (b : ndarray),
    (normalize (dt := float32) 0 one_row_store).2 !! fresh (dom one_row_store) = Some b /\
    length b = 1.
Proof.
  destruct (normalized_spread (dt := float32) [[Num 1; Num 3]]
              (Forall_cons_2 _ _ _ spread_1_3 (Forall_nil_2 _)))
    as (n & Hn & _).
  pose proof (normalize_normalized (dt := float32) one_row_store 0 [[Num 1; Num 3]] n
                (lookup_singleton_eq 0 [[Num 1; Num 3]]) Hn) as Hrun.
  destruct (normalize_keeps_shape (dt := float32) one_row_store 0 [[Num 1; Num 3]] _ _
              (lookup_singleton_eq 0 [[Num 1; Num 3]]) Hrun) as (b & Hb & Hlen & _).
  exists b. rewrite Hrun. split; [exact Hb | exact Hlen].
Defined.

Lemma normalize_allocates_one_array_witness :
  dom (normalize (dt := float32) 0 one_row_store).2
    = {[fresh (dom one_row_store)]} ∪ dom one_row_store.
Proof.
  destruct (normalize_allocates_one_array (dt := float32) one_row_store 0 [[Num 1; Num 3]]
              (lookup_singleton_eq 0 [[Num 1; Num 3]])) as [Hdom _].
  exact Hdom.
Defined.

Lemma normalize_keeps_order_witness :
  exists (b : ndarray) (orow : list npfloat) x' y',
    normalize (dt := float32) 0 one_row_store
      = (Ok (fresh (dom one_row_store)), <[fresh (dom one_row_store) := b]> one_row_store) /\
    b !! 0 = Some orow /\
    orow !! 0 = Some (Num x') /\ orow !! 1 = Some (Num y') /\
    (x' <= y')%R.
Proof.
  destruct (normalize_keeps_order (dt := float32) one_row_store 0 [[Num 1; Num 3]] 1 2 0
              [Num 1; Num 3] 0 1 1 3
              (lookup_singleton_eq 0 [[Num 1; Num 3]]) (matrix_1_2 (Num 1) (Num 3)) eq_refl
              spread_1_3 eq_refl eq_refl)
    as (b & orow & x' & y' & Hrun & Hb & Hx & Hy & Hle).
  exists b, orow, x', y'. repeat (split; [assumption|]). apply Hle. lra.
Defined.

Lemma normalize_overflowing_row_witness :
  exists (b : ndarray) (orow : list npfloat),
    normalize (dt := float64) 0 overflow_store
      = (Ok (fresh (dom overflow_store)), <[fresh (dom overflow_store) := b]> overflow_store) /\
    b !! 0 = Some orow /\
    orow !! 1 = Some (Num 0) /\ orow !! 2 = Some NaN.
Proof.
  pose proof float64_threshold as Ht.
  destruct (normalize_overflowing_row (dt := float64) overflow_store 0 [overflow_row] 1 3 0
              overflow_row (-1e308) 1e308
              (lookup_singleton_eq 0 [overflow_row])
              matrix_overflow_row eq_refl
              min_overflow_row max_overflow_row ltac:(lra))
    as (b & orow & Hrun & Hb & Hk & _).
  exists b, orow. split; [exact Hrun|]. split; [exact Hb|]. split.
  - apply (Hk 1 0%R); [reflexivity | lra].
  - apply (Hk 2 1e308%R); [reflexivity | lra].
Defined.
End NormalizeMoreExamples.

(** ** The tick labels *)

Section TickLabels.

Example tick_labels_of_the_sentence :
  tick_labels (list_ascii_of_string "I am looking for a place to eat.")
  = list_ascii_of_string <$>
      ["I"; "am"; "looking"; "for"; "a"; "place"; "to"; "eat"; "."; "EOS"]%string.
Proof. reflexivity. Qed.

Lemma str_replace_app old new s t :
  str_replace old new (s ++ t) = str_replace old new s ++ str_replace old new t.
Proof.
  induction s as [|c s IH]; [reflexivity|].
  cbn [app str_replace]. rewrite IH, app_assoc. reflexivity.
Qed.

Lemma str_split_nonempty sep s : str_split sep s <> [].
Proof.
  destruct s as [|c s]; [discriminate|]. cbn [str_split].
  destruct (Ascii.eqb c sep); [discriminate|].
  destruct (str_split sep s); discriminate.
Qed.

Lemma str_split_app sep s t :
  str_split sep (s ++ sep :: t) = str_split sep s ++ str_split sep t.
Proof.
  induction s as [|c s IH].
  - cbn [app str_split]. rewrite Ascii.eqb_refl. reflexivity.
  - cbn [app str_split]. destruct (Ascii.eqb c sep); [rewrite IH; reflexivity|].
    rewrite IH. pose proof (str_split_nonempty sep s) as Hne.
    destruct (str_split sep s) as [|w ws]; [contradiction | reflexivity].
Qed.

Lemma str_split_length sep s : length (str_split sep s) = 1 + count (is_char sep) s.
Proof.
  induction s as [|c s IH]; [reflexivity|].
  cbn [str_split count]. unfold is_char at 1.
  destruct (Ascii.eqb c sep); [cbn [length]; rewrite IH; reflexivity|].
  pose proof (str_split_nonempty sep s) as Hne.
  destruct (str_split sep s) as [|w ws]; [contradiction|]. cbn [length] in *. lia.
Qed.

Lemma str_split_pieces sep s : Forall (fun w => count (is_char sep) w = 0) (str_split sep s).
Proof.
  induction s as [|c s IH]; [repeat constructor|].
  cbn [str_split]. destruct (Ascii.eqb c sep) eqn:E; [constructor; [reflexivity | exact IH]|].
  destruct (str_split sep s) as [|w ws]; [repeat constructor; cbn; unfold is_char; rewrite E; reflexivity|].
  apply Forall_cons in IH as [Hw Hws]. constructor; [|exact Hws].
  cbn [count]. unfold is_char at 1. rewrite E. exact Hw.
Qed.

Lemma str_split_concat sep s : concat (str_split sep s) = without (is_char sep) s.
Proof.
  induction s as [|c s IH]; [reflexivity|].
  cbn [str_split without]. unfold is_char at 1.
  destruct (Ascii.eqb c sep); [cbn [concat app]; exact IH|].
  pose proof (str_split_nonempty sep s) as Hne.
  destruct (str_split sep s) as [|w ws]; [contradiction|].
  cbn [concat app] in *. rewrite IH. reflexivity.
Qed.

Lemma count_app p s t : count p (s ++ t) = count p s + count p t.
Proof. induction s as [|c s IH]; [reflexivity|]. cbn [app count]. rewrite IH. lia. Qed.

Lemma without_app p s t : without p (s ++ t) = without p s ++ without p t.
Proof.
  induction s as [|c s IH]; [reflexivity|]. cbn [app without].
  destruct (p c); rewrite IH; reflexivity.
Qed.

(** Writing [" " ++ old] for [old] adds one space for each [old]. *)
Lemma count_space_replace old s :
  old <> space ->
  count (is_char space) (str_replace old [space; old] s)
  = count (is_char space) s + count (is_char old) s.
Proof.
  intros Hne. unfold is_char. induction s as [|c s IH]; [reflexivity|].
  cbn [str_replace]. rewrite count_app, IH. cbn [count].
  destruct (Ascii.eqb_spec c old) as [-> | Hc].
  - cbn [count]. rewrite Ascii.eqb_refl.
    destruct (Ascii.eqb_spec old space); [contradiction|]. lia.
  - cbn [count]. lia.
Qed.

Lemma count_other_replace c old s :
  c <> old -> c <> space ->
  count (is_char c) (str_replace old [space; old] s) = count (is_char c) s.
Proof.
  intros Hold Hsp. unfold is_char. induction s as [|c' s IH]; [reflexivity|].
  cbn [str_replace]. rewrite count_app, IH. cbn [count].
  destruct (Ascii.eqb_spec c' old) as [-> | Hc].
  - cbn [count].
    destruct (Ascii.eqb_spec space c); [congruence|].
    destruct (Ascii.eqb_spec old c); [congruence|]. reflexivity.
  - cbn [count]. lia.
Qed.

Lemma without_space_replace old s :
  old <> space ->
  without (is_char space) (str_replace old [space; old] s) = without (is_char space) s.
Proof.
  intros Hne. unfold is_char. induction s as [|c s IH]; [reflexivity|].
  cbn [str_replace]. rewrite without_app, IH. cbn [without].
  destruct (Ascii.eqb_spec c old) as [-> | Hc].
  - cbn [without]. rewrite Ascii.eqb_refl.
    destruct (Ascii.eqb_spec old space); [contradiction | reflexivity].
  - cbn [without app]. destruct (Ascii.eqb c space); reflexivity.
Qed.

(** The sentence once both replacements are done. *)
Lemma replaced_sentence s :
  str_replace comma [space; comma] (str_replace dot [space; dot]
    (s ++ list_ascii_of_string " EOS"))
  = str_replace comma [space; comma] (str_replace dot [space; dot] s)
    ++ space :: list_ascii_of_string "EOS".
Proof. rewrite !str_replace_app. reflexivity. Qed.

(** X20. Whatever the sentence, the last tick label is [EOS]. *)
Theorem tick_labels_end_with_eos s :
  last (tick_labels s) = Some (list_ascii_of_string "EOS").
Proof.
  unfold tick_labels. rewrite replaced_sentence, str_split_app.
  change (str_split space (list_ascii_of_string "EOS")) with [list_ascii_of_string "EOS"].
  apply last_snoc.
Qed.

(** X21. The number of tick labels is 2 plus the number of spaces, full
    stops and commas of the sentence. *)
Theorem tick_labels_count s :
  length (tick_labels s)
  = 2 + count (is_char space) s + count (is_char dot) s + count (is_char comma) s.
Proof.
  unfold tick_labels. rewrite str_split_length.
  rewrite count_space_replace by discriminate.
  rewrite count_space_replace by discriminate.
  rewrite count_other_replace by discriminate.
  rewrite !count_app. cbn. lia.
Qed.

(** X22. No tick label holds a space, and the labels, one after another,
    spell the sentence without its spaces, followed by [EOS]. *)
Theorem tick_labels_keep_the_text s :
  Forall (fun w => count (is_char space) w = 0) (tick_labels s) /\
  concat (tick_labels s) = without (is_char space) s ++ list_ascii_of_string "EOS".
Proof.
  split; [apply str_split_pieces|].
  unfold tick_labels. rewrite str_split_concat.
  rewrite !without_space_replace by discriminate.
  rewrite without_app. reflexivity.
Qed.
End TickLabels.

(** ** TransformerEncoder, continued *)

Section MonadSteps.
Context {S : Type}.

Lemma bind_ok {A B} (c : M S A) (k : A -> M S B) s a s1 :
  c s = (Ok a, s1) -> bind c k s = k a s1.
Proof. intros Hc. unfold bind. rewrite Hc. reflexivity. Qed.

Lemma bind_raise {A B} (c : M S A) (k : A -> M S B) s e s1 :
  c s = (Raise e, s1) -> bind c k s = (Raise e, s1).
Proof. intros Hc. unfold bind. rewrite Hc. reflexivity. Qed.
End MonadSteps.

Section EncoderMore.
Context `{Framework}.
Import TransformerEncoder.

Lemma bind_log {B} ev (k : unit -> M St B) st :
  bind (log ev) k st = k tt (mkSt (gen st) (calls st ++ [ev])).
Proof. reflexivity. Qed.

Lemma run_layers_total mask ls :
  (forall l, l ∈ ls -> forall x g, exists y g', layer_forward l x mask g = (Ok y, g')) ->
  forall x st, exists z st', run_layers ls mask x st = (Ok z, st').
Proof.
  induction ls as [|l ls IH]; intros Hls x st; [eexists _, _; reflexivity|].
  cbn [run_layers].
  destruct (Hls l ltac:(left) x (gen st)) as (y & g' & Hy).
  rewrite (bind_ok _ _ st y (mkSt g' (calls st))) by (unfold on_gen; rewrite Hy; reflexivity).
  rewrite bind_log.
  apply IH. intros l' Hl'. apply Hls. right. exact Hl'.
Qed.

(** The embedding with the positions added, when both have the same shape. *)
Lemma positions_stage self src e st :
  (forall P, embed_positions self = Some P ->
     exists pos, positions P src = Ok pos /\ shape pos = shape e) ->
  exists x1 pevs,
    (match embed_positions self with
     | Some embed_positions =>
         let* pos := lift_result (positions embed_positions src) in
         let* _ := log (EvEmbedPositions src pos) in
         lift_result (tensor_iop Rplus (tensor_map (Rmult (embed_scale self)) e) pos)
     | None => ret (tensor_map (Rmult (embed_scale self)) e)
     end) st = (Ok x1, mkSt (gen st) (calls st ++ pevs)) /\
    shape x1 = shape e /\
    Forall (fun ev => exists pos, ev = EvEmbedPositions src pos) pevs.
Proof.
  intros Hpos. destruct (embed_positions self) as [P|].
  - destruct (Hpos P eq_refl) as (pos & Hp & Hshape).
    exists (mkTensor (shape e)
              (fun idx => (item (tensor_map (Rmult (embed_scale self)) e) idx
                           + item pos (bidx (shape pos) idx))%R)),
           [EvEmbedPositions src pos].
    split; [|split; [reflexivity | constructor; [eauto | constructor]]].
    rewrite (bind_ok _ _ st pos st) by (unfold lift_result; rewrite Hp; reflexivity).
    rewrite bind_log.
    unfold lift_result, tensor_iop. change (shape (tensor_map _ e)) with (shape e).
    rewrite Hshape.
    destruct (decide _) as [_|Hn]; [reflexivity | destruct Hn; apply broadcast_shapes_refl].
  - exists (tensor_map (Rmult (embed_scale self)) e), [].
    split; [|split; [reflexivity | constructor]].
    unfold ret. rewrite app_nil_r. destruct st. reflexivity.
Qed.

(** X23. [TransformerEncoder.forward] has no other failure of its own
    on well-shaped input: for an encoder built by [__init__] on an
    embedding that has a padding index, when the token embedding returns
    a tensor of at least two dimensions, the positional embedding (if
    any) returns a tensor of the same shape, the dropout is a
    probability, and the layers and the normalization return, [forward]
    returns. *)
Theorem forward_returns args emb left_pad st0 enc st1 mode src len st e p :
  __init__ args emb left_pad st0 = (Ok enc, st1) ->
  emb_padding_idx emb = Some p ->
  embed emb src = Ok e -> 2 <= length (shape e) ->
  (forall P, embed_positions enc = Some P ->
     exists pos, positions P src = Ok pos /\ shape pos = shape e) ->
  (0 <= args_dropout args <= 1)%R ->
  (forall l, l ∈ layers enc -> forall x m g, exists y g', layer_forward l x m g = (Ok y, g')) ->
  (forall ln, layer_norm enc = Some ln -> forall x, exists y, norm ln x = Ok y) ->
  exists x m st', forward (train mode enc) src len st = (Ok (x, m), st').
Proof.
  intros Hinit Hpad He Hdim Hpos Hp Hlayers Hnorm.
  destruct (encoder_init_inv _ _ _ _ _ _ Hinit)
    as (Hemb & _ & Hpidx & Hdrop & _ & _ & Hln & _).
  rewrite Hpad in Hpidx.
  unfold forward.
  change (embed_tokens (train mode enc)) with (embed_tokens enc). rewrite Hemb.
  rewrite (bind_ok _ _ st e st) by (unfold lift_result; rewrite He; reflexivity).
  rewrite bind_log.
  destruct (positions_stage (train mode enc) src e
              (mkSt (gen st) (calls st ++ [EvEmbedTokens src e])) Hpos)
    as (x1 & pevs & Hx1 & Hs1 & _).
  cbv zeta. rewrite (bind_ok _ _ _ x1 _ Hx1).
  change (dropout (train mode enc)) with (dropout enc). rewrite Hdrop.
  change (training (train mode enc)) with mode.
  destruct (F_dropout_ok x1 (args_dropout args) mode (gen st) Hp) as (x2 & g2 & Hx2).
  pose proof (F_dropout_shape _ _ _ _ _ _ Hx2) as Hs2.
  match goal with |- context [bind (on_gen ?c) ?k ?s] =>
    rewrite (bind_ok (on_gen c) k s x2 (mkSt g2 (calls s)))
      by (unfold on_gen; cbn [gen calls]; rewrite Hx2; reflexivity) end.
  rewrite bind_log.
  assert (Htr : exists xt, transpose01 x2 = Ok xt).
  { unfold transpose01. rewrite Hs2, Hs1.
    destruct (shape e) as [|a [|b rest]]; cbn in Hdim; try lia. eauto. }
  destruct Htr as [xt Htr].
  match goal with |- context [bind ?c ?k ?s] =>
    match c with
    | (if _ then _ else _) =>
        rewrite (bind_ok c k s xt s)
          by (destruct (self_fuse_dropout_add (train mode enc));
              unfold bind, lift_result, ret, contiguous; rewrite Htr; reflexivity)
    end end.
  change (padding_idx (train mode enc)) with (padding_idx enc). rewrite Hpidx.
  cbn [eq_scalar].
  match goal with |- context [bind (lift_result (Ok ?mask)) ?k ?s] =>
    rewrite (bind_ok (lift_result (Ok mask)) k s mask s eq_refl) end.
  match goal with |- context [bind (run_layers ?ls ?mk xt) ?k ?s] =>
    destruct (run_layers_total mk ls (fun l Hl x g => Hlayers l Hl x mk g) xt s)
      as (xl & s7 & Hxl);
    rewrite (bind_ok (run_layers ls mk xt) k s xl s7 Hxl) end.
  change (normalize (train mode enc)) with (normalize enc).
  change (layer_norm (train mode enc)) with (layer_norm enc).
  destruct (normalize enc) eqn:Hn.
  - destruct (Hln eq_refl) as (ln & Hlnorm). rewrite Hlnorm.
    destruct (Hnorm ln Hlnorm xl) as (z & Hz).
    eexists _, _, _. unfold bind, lift_result, log, ret. rewrite Hz. reflexivity.
  - eexists _, _, _. unfold bind, ret. reflexivity.
Qed.

(** X27. [__init__] copies the padding index of the embedding
    unchecked, and an [nn.Embedding] built without one has None: then
    [forward] raises TypeError at [src_tokens.eq(None)], after the
    embeddings and dropout and before any layer is called. *)
Theorem forward_needs_padding_idx args emb left_pad st0 enc st1 mode src len st e :
  __init__ args emb left_pad st0 = (Ok enc, st1) ->
  emb_padding_idx emb = None ->
  embed emb src = Ok e -> 2 <= length (shape e) ->
  (forall P, embed_positions enc = Some P ->
     exists pos, positions P src = Ok pos /\ shape pos = shape e) ->
  (0 <= args_dropout args <= 1)%R ->
  exists pevs x1 x2 g',
    forward (train mode enc) src len st
      = (Raise TypeError,
         mkSt g' (calls st ++ EvEmbedTokens src e :: pevs
                    ++ [EvDropout x1 (args_dropout args) mode x2])) /\
    Forall (fun ev => exists pos, ev = EvEmbedPositions src pos) pevs.
Proof.
  intros Hinit Hpad He Hdim Hpos Hp.
  destruct (encoder_init_inv _ _ _ _ _ _ Hinit)
    as (Hemb & _ & Hpidx & Hdrop & _).
  rewrite Hpad in Hpidx.
  unfold forward.
  change (embed_tokens (train mode enc)) with (embed_tokens enc). rewrite Hemb.
  rewrite (bind_ok _ _ st e st) by (unfold lift_result; rewrite He; reflexivity).
  rewrite bind_log.
  destruct (positions_stage (train mode enc) src e
              (mkSt (gen st) (calls st ++ [EvEmbedTokens src e])) Hpos)
    as (x1 & pevs & Hx1 & Hs1 & Hpevs).
  cbv zeta. rewrite (bind_ok _ _ _ x1 _ Hx1).
  change (dropout (train mode enc)) with (dropout enc). rewrite Hdrop.
  change (training (train mode enc)) with mode.
  destruct (F_dropout_ok x1 (args_dropout args) mode (gen st) Hp) as (x2 & g2 & Hx2).
  pose proof (F_dropout_shape _ _ _ _ _ _ Hx2) as Hs2.
  exists pevs, x1, x2, g2. split; [|exact Hpevs].
  match goal with |- context [bind (on_gen ?c) ?k ?s] =>
    rewrite (bind_ok (on_gen c) k s x2 (mkSt g2 (calls s)))
      by (unfold on_gen; cbn [gen calls]; rewrite Hx2; reflexivity) end.
  rewrite bind_log.
  assert (Htr : exists xt, transpose01 x2 = Ok xt).
  { unfold transpose01. rewrite Hs2, Hs1.
    destruct (shape e) as [|a [|b rest]]; cbn in Hdim; try lia. eauto. }
  destruct Htr as [xt Htr].
  match goal with |- context [bind ?c ?k ?s] =>
    match c with
    | (if _ then _ else _) =>
        rewrite (bind_ok c k s xt s)
          by (destruct (self_fuse_dropout_add (train mode enc));
              unfold bind, lift_result, ret, contiguous; rewrite Htr; reflexivity)
    end end.
  change (padding_idx (train mode enc)) with (padding_idx enc). rewrite Hpidx.
  cbn [eq_scalar gen calls]. unfold bind at 1, lift_result.
  rewrite <- !app_assoc. reflexivity.
Qed.
End EncoderMore.

Section EncoderErrors.
Context `{Framework}.
Import TransformerEncoder.

Lemma F_dropout_rejects (x : tensor R) p tr g :
  (p < 0 \/ 1 < p)%R -> F_dropout x p tr g = (Raise ValueError, g).
Proof.
  intros Hp. unfold F_dropout.
  assert (Hc : Rle_bool 0 p && Rle_bool p 1 = false).
  { destruct Hp as [Hp | Hp].
    - rewrite (Rle_bool_false 0 p Hp). reflexivity.
    - rewrite (Rle_bool_false p 1 Hp). apply andb_false_r. }
  rewrite Hc. reflexivity.
Qed.

(** X24. [TransformerEncoder.__init__] stores [args.dropout] unchecked;
    a value outside [0, 1] makes [forward] raise ValueError once the
    embeddings are computed, before any layer is called. *)
Theorem forward_rejects_dropout_probability args emb left_pad st0 enc st1 mode src len st e :
  __init__ args emb left_pad st0 = (Ok enc, st1) ->
  (args_dropout args < 0 \/ 1 < args_dropout args)%R ->
  embed emb src = Ok e ->
  (forall P, embed_positions enc = Some P ->
     exists pos, positions P src = Ok pos /\ shape pos = shape e) ->
  exists pevs,
    forward (train mode enc) src len st
      = (Raise ValueError, mkSt (gen st) (calls st ++ EvEmbedTokens src e :: pevs)) /\
    Forall (fun ev => exists pos, ev = EvEmbedPositions src pos) pevs.
Proof.
  intros Hinit Hp He Hpos.
  destruct (encoder_init_inv _ _ _ _ _ _ Hinit) as (Hemb & _ & _ & Hdrop & _).
  unfold forward.
  change (embed_tokens (train mode enc)) with (embed_tokens enc). rewrite Hemb.
  rewrite (bind_ok _ _ st e st) by (unfold lift_result; rewrite He; reflexivity).
  rewrite bind_log.
  destruct (positions_stage (train mode enc) src e
              (mkSt (gen st) (calls st ++ [EvEmbedTokens src e])) Hpos)
    as (x1 & pevs & Hx1 & _ & Hpevs).
  exists pevs. split; [|exact Hpevs].
  cbv zeta. rewrite (bind_ok _ _ _ x1 _ Hx1).
  change (dropout (train mode enc)) with (dropout enc). rewrite Hdrop.
  apply bind_raise. unfold on_gen. cbn [gen calls].
  rewrite (F_dropout_rejects x1 (args_dropout args) _ (gen st) Hp).
  rewrite <- app_assoc. reflexivity.
Qed.

Lemma layer_calls_shape mask ls g x evs g' z :
  (forall l, l ∈ ls -> forall x g y g',
      layer_forward l x mask g = (Ok y, g') -> shape y = shape x) ->
  layer_calls mask ls g x evs g' z -> shape z = shape x.
Proof.
  intros Hls Hcalls. induction Hcalls as [|l ls g x g1 y evs g' z Hy _ IH]; [reflexivity|].
  rewrite IH by (intros l' Hl'; apply Hls; right; exact Hl').
  apply (Hls l ltac:(left) x g y g1 Hy).
Qed.

(** X25. As the comment at the end of [forward] says: when the
    embedding is B x T x C and the layers and the normalization keep the
    shape of their input, the first component returned is T x B x C and
    the second has the shape of [src_tokens]. *)
Theorem forward_output_shapes self src len st x m st' e B T C :
  forward self src len st = (Ok (x, m), st') ->
  embed (embed_tokens self) src = Ok e -> shape e = [B; T; C] ->
  (forall l, l ∈ layers self -> forall x mask g y g',
      layer_forward l x mask g = (Ok y, g') -> shape y = shape x) ->
  (forall ln, layer_norm self = Some ln -> forall x y, norm ln x = Ok y -> shape y = shape x) ->
  shape x = [T; B; C] /\ exists mask, m = Some mask /\ shape mask = shape src.
Proof.
  intros Hrun He Hshape Hlayers Hnorm.
  destruct (forward_inv _ _ _ _ _ _ _ Hrun)
    as (p & e' & x1 & x2 & g1 & xt & xl & pevs & levs & nevs
        & _ & He' & Hpos & Hdp & Htr & Hcalls & Hn & Hm & _).
  rewrite He in He'. apply Ok_inj in He'. subst e'.
  assert (Hs1 : shape x1 = [B; T; C]).
  { destruct (embed_positions self) as [P|].
    - destruct Hpos as (pos & _ & Hadd & _). unfold tensor_iop in Hadd.
      destruct (decide _); [|discriminate]. apply Ok_inj in Hadd. subst x1. exact Hshape.
    - destruct Hpos as [-> _]. exact Hshape. }
  assert (Hs2 : shape x2 = [B; T; C])
    by (rewrite (F_dropout_shape _ _ _ _ _ _ Hdp); exact Hs1).
  assert (Hst : shape xt = [T; B; C]).
  { unfold transpose01 in Htr. rewrite Hs2 in Htr. apply Ok_inj in Htr. subst xt. reflexivity. }
  assert (Hsl : shape xl = [T; B; C]).
  { rewrite (layer_calls_shape _ _ _ _ _ _ _
               (fun l Hl x g y g' => Hlayers l Hl x _ g y g') Hcalls). exact Hst. }
  split.
  - destruct (normalize self).
    + destruct Hn as (ln & Hln & Hz & _). rewrite (Hnorm ln Hln xl x Hz). exact Hsl.
    + destruct Hn as [-> _]. exact Hsl.
  - eexists. split; [exact Hm | reflexivity].
Qed.
End EncoderErrors.

Section EncoderMoreExamples.
Import TransformerEncoder.

Lemma example_positions (P : PositionalEmbedding) enc st1 :
  @__init__ keep_all example_framework example_args example_embedding true example_state
    = (Ok enc, st1) ->
  embed_positions enc = Some P ->
  exists pos, positions P example_tokens = Ok pos /\
              shape pos = shape (mkTensor [1; 3; 4] (fun _ : list nat => 1%R)).
Proof.
  cbn -[INR sqrt]. unfold ret. intros Hinit. injection Hinit as <- <-.
  cbn [embed_positions]. intros [= <-]. eexists. split; reflexivity.
Qed.

Lemma forward_returns_witness :
  exists enc st1 x m st',
    @__init__ keep_all example_framework example_args example_embedding true example_state
      = (Ok enc, st1) /\
    @forward keep_all (train true enc) example_tokens example_tokens st1 = (Ok (x, m), st').
Proof.
  destruct example_init as (enc & st1 & Hinit).
  destruct (@forward_returns keep_all example_framework example_args example_embedding true
              example_state enc st1 true example_tokens example_tokens st1
              (mkTensor [1; 3; 4] (fun _ => 1%R)) 1%Z Hinit eq_refl eq_refl ltac:(cbn; lia))
    as (x & m & st' & Hrun).
  - intros P HP. exact (example_positions P enc st1 Hinit HP).
  - cbn. lra.
  - revert Hinit. cbn -[INR sqrt]. unfold ret. intros Hinit. injection Hinit as <- <-.
    cbn [layers]. intros l Hl x m g. exists x, g.
    apply elem_of_cons in Hl as [-> | Hl]; [reflexivity|].
    apply list_elem_of_singleton in Hl. subst l. reflexivity.
  - revert Hinit. cbn -[INR sqrt]. unfold ret. intros Hinit. injection Hinit as <- <-.
    cbn [layer_norm]. intros ln [= <-] x. exists x. reflexivity.
  - exists enc, st1, x, m, st'. split; [exact Hinit | exact Hrun].
Defined.

Lemma forward_rejects_dropout_probability_witness :
  exists enc st1,
    @__init__ keep_all example_framework bad_dropout_args example_embedding true example_state
      = (Ok enc, st1) /\
    (@forward keep_all (train true enc) example_tokens example_tokens st1).1
      = Raise ValueError.
Proof.
  assert (Hinit : exists enc st1,
             @__init__ keep_all example_framework bad_dropout_args example_embedding true
               example_state = (Ok enc, st1) /\
             embed_positions enc
               = Some (mkPositionalEmbedding
                         (fun src => Ok (mkTensor (shape src ++ [4]) (fun _ => 0%R))))).
  { eexists _, _. cbn -[INR sqrt]. split; reflexivity. }
  destruct Hinit as (enc & st1 & Hinit & Hpos).
  exists enc, st1. split; [exact Hinit|].
  destruct (@forward_rejects_dropout_probability keep_all example_framework bad_dropout_args
              example_embedding true example_state enc st1 true example_tokens example_tokens
              st1 (mkTensor [1; 3; 4] (fun _ => 1%R)) Hinit ltac:(right; cbn; lra) eq_refl)
    as (pevs & Hrun & _).
  - intros P HP. rewrite Hpos in HP. injection HP as <-. eexists. split; reflexivity.
  - rewrite Hrun. reflexivity.
Defined.

Lemma forward_needs_padding_idx_witness :
  exists enc st1,
    @__init__ keep_all example_framework no_positions_args no_padding_embedding true
      example_state = (Ok enc, st1) /\
    (@forward keep_all (train false enc) example_tokens example_tokens st1).1
      = Raise TypeError.
Proof.
  assert (Hinit : exists enc st1,
             @__init__ keep_all example_framework no_positions_args no_padding_embedding true
               example_state = (Ok enc, st1) /\
             embed_positions enc = None).
  { eexists _, _. cbn -[INR sqrt]. split; reflexivity. }
  destruct Hinit as (enc & st1 & Hinit & Hpos).
  exists enc, st1. split; [exact Hinit|].
  destruct (@forward_needs_padding_idx keep_all example_framework no_positions_args
              no_padding_embedding true example_state enc st1 false example_tokens
              example_tokens st1 (mkTensor [1; 3; 4] (fun _ => 1%R)) Hinit eq_refl eq_refl
              ltac:(cbn; lia))
    as (pevs & x1 & x2 & g' & Hrun & _).
  - intros P HP. rewrite Hpos in HP. discriminate.
  - cbn. lra.
  - rewrite Hrun. reflexivity.
Defined.

Lemma forward_output_shapes_witness :
  exists enc st1 x m st',
    @__init__ keep_all example_framework example_args example_embedding true example_state
      = (Ok enc, st1) /\
    @forward keep_all (train false enc) example_tokens example_tokens st1
      = (Ok (x, m), st') /\
    shape x = [3; 1; 4].
Proof.
  destruct example_init as (enc & st1 & Hinit).
  destruct (example_forward enc st1 Hinit) as (x & m & st' & Hrun).
  exists enc, st1, x, m, st'. split; [exact Hinit|]. split; [exact Hrun|].
  assert (Henc : embed_tokens enc = example_embedding /\
                 layers enc = [identity_layer; identity_layer] /\
                 layer_norm enc = Some (mkLayerNorm Ok)).
  { revert Hinit. cbn -[INR sqrt]. unfold ret. intros Hinit. injection Hinit as <- <-.
    repeat split. }
  destruct Henc as (Hemb & Hls & Hln).
  destruct (@forward_output_shapes keep_all (train false enc) example_tokens example_tokens
              st1 x m st' (mkTensor [1; 3; 4] (fun _ => 1%R)) 1 3 4 Hrun) as [Hshape _].
  - change (embed_tokens (train false enc)) with (embed_tokens enc). rewrite Hemb. reflexivity.
  - reflexivity.
  - change (layers (train false enc)) with (layers enc). rewrite Hls.
    intros l Hl x0 mask g y g' Hy.
    assert (Hid : l = identity_layer).
    { apply elem_of_cons in Hl as [-> | Hl]; [reflexivity|].
      apply list_elem_of_singleton in Hl. exact Hl. }
    subst l. cbn in Hy. injection Hy as <- _. reflexivity.
  - change (layer_norm (train false enc)) with (layer_norm enc). rewrite Hln.
    intros ln [= <-] x0 y Hy. cbn in Hy. injection Hy as <-. reflexivity.
  - exact Hshape.
Defined.
End EncoderMoreExamples.
